(** * fakelibc: the stub C library of stream-os and its formatted-output path

    This development embeds [src/fakelibc.c]:
    - the driving loop [do_printf] (lines 110-122), generic over the
      parser and the argument reader it calls;
    - the C entry points [printf], [snprintf], [vfprintf], [vsnprintf]
      and the unimplemented / no-op stubs, as functions on a machine
      state that holds the process-wide [errno] and the console.
    The format interpreter [printf_parser_*] and the reader [va_arg_ptr]
    are declared but not defined in the C source; they are modelled from
    the specification (definitions marked "Modelled from the spec"). *)

From Stdlib Require Import ZArith Lia String Ascii.
From stdpp Require Import base list.
Import ListNotations.

Open Scope Z_scope.

(** Errors raised by the collaborators of [do_printf]. *)
Inductive fmt_error :=
| FormatSyntaxError
| UnsupportedConversion
| ArgumentExhausted
| ParserMisuse.

(** Results of a fallible call. *)
Inductive res (T : Type) :=
| Ok (v : T)
| Err (e : fmt_error).
Arguments Ok {T} v.
Arguments Err {T} e.

(** Observable events of one run of [do_printf]: each call of
    [printf_parser_advance] (with its result, or its fault), each call of
    [va_arg_ptr] (with the size asked for and the bytes returned) and
    each call of [printf_parser_push_arg] (with the bytes passed). *)
Inductive event :=
| EvAdvance (n : Z)
| EvAdvanceFault (e : fmt_error)
| EvPull (n : Z) (arg : list Z)
| EvPush (arg : list Z).

Definition trace := list event.

(** ** The driving loop [do_printf] (fakelibc.c, lines 110-122)

<<
void do_printf(struct PrintfParser* parser, const char *restrict format, va_list args) {
	int arg_size = 0;
	while (true) {
		arg_size = printf_parser_advance(parser);
		if (arg_size == 0) {
			break;
		}
		char* arg = va_arg_ptr(args, arg_size);
		printf_parser_push_arg(parser, arg);
	}
}
>>

    The parser state [P] and the argument list [A] are threaded
    explicitly.  A fault of a collaborator aborts the call ([Failed]).
    The [while (true)] loop is run on [fuel]; [OutOfFuel] only records
    that the fuel ran out. *)
Section DoPrintf.
Context {P A : Type}.
Variable printf_parser_advance : P -> P * res Z.
Variable printf_parser_push_arg : P -> list Z -> P * res unit.
Variable va_arg_ptr : A -> Z -> res (list Z * A).

Inductive outcome :=
| Finished (p : P) (a : A)
| Failed (e : fmt_error) (p : P)
| OutOfFuel (p : P) (a : A).

Fixpoint do_printf (fuel : nat) (parser : P) (args : A) : trace * outcome :=
  match fuel with
  | O => ([], OutOfFuel parser args)
  | S fuel' =>
      match printf_parser_advance parser with
      | (p1, Err e) => ([EvAdvanceFault e], Failed e p1)
      | (p1, Ok arg_size) =>
          if Z.eqb arg_size 0 then ([EvAdvance 0], Finished p1 args)
          else
            match va_arg_ptr args arg_size with
            | Err e => ([EvAdvance arg_size], Failed e p1)
            | Ok (arg, args1) =>
                match printf_parser_push_arg p1 arg with
                | (p2, Err e) =>
                    ([EvAdvance arg_size; EvPull arg_size arg; EvPush arg], Failed e p2)
                | (p2, Ok _) =>
                    let (t, o) := do_printf fuel' p2 args1 in
                    (EvAdvance arg_size :: EvPull arg_size arg :: EvPush arg :: t, o)
                end
            end
      end
  end.

(** A run is a sequence of complete rounds: an advance with a nonzero
    result [n], one [va_arg_ptr] call for [n] bytes on the current
    argument list, one push of exactly the bytes it returned. *)
Inductive rounds : A -> trace -> Prop :=
| rounds_nil a : rounds a []
| rounds_cons a n arg a1 t :
    n <> 0 -> va_arg_ptr a n = Ok (arg, a1) -> rounds a1 t ->
    rounds a (EvAdvance n :: EvPull n arg :: EvPush arg :: t).

Definition is_finished (o : outcome) : Prop :=
  match o with Finished _ _ => True | _ => False end.
Definition is_failed (o : outcome) : Prop :=
  match o with Failed _ _ => True | _ => False end.

(** Shape of every run of the loop. *)
Lemma do_printf_shape fuel p a :
  let '(t, o) := do_printf fuel p a in
  exists r tl, rounds a r /\ t = r ++ tl /\
    (tl = [] \/
     (tl = [EvAdvance 0] /\ is_finished o) \/
     (exists n, n <> 0 /\ tl = [EvAdvance n] /\ is_failed o) \/
     (exists e, tl = [EvAdvanceFault e] /\ is_failed o)).
Proof.
  revert p a; induction fuel as [|fuel IH]; intros p a; simpl.
  - exists [], []. split; [constructor | split; [reflexivity | left; reflexivity]].
  - destruct (printf_parser_advance p) as [p1 [n|e]].
    + destruct (Z.eqb_spec n 0) as [->|Hn].
      * exists [], [EvAdvance 0].
        split; [constructor | split; [reflexivity | right; left; simpl; auto]].
      * destruct (va_arg_ptr a n) as [[arg a1]|e] eqn:Hpull.
        -- destruct (printf_parser_push_arg p1 arg) as [p2 [u|e]].
           ++ specialize (IH p2 a1).
              destruct (do_printf fuel p2 a1) as [t o].
              destruct IH as (r & tl & Hr & -> & Htl).
              exists (EvAdvance n :: EvPull n arg :: EvPush arg :: r), tl.
              split; [econstructor; eauto | split; [reflexivity | exact Htl]].
           ++ exists [EvAdvance n; EvPull n arg; EvPush arg], [].
              split; [econstructor; eauto; constructor | split; [reflexivity | left; reflexivity]].
        -- exists [], [EvAdvance n].
           split; [constructor | split; [reflexivity | right; right; left; exists n; simpl; auto]].
    + exists [], [EvAdvanceFault e].
      split; [constructor | split; [reflexivity | right; right; right; exists e; simpl; auto]].
Qed.

End DoPrintf.

Arguments Finished {P A} p a.
Arguments Failed {P A} e p.
Arguments OutOfFuel {P A} p a.

(** ** The format interpreter [PrintfParser]

    Modelled from the spec: [printf_parser_new], [printf_parser_advance]
    and [printf_parser_push_arg] are declared in fakelibc.c (lines 7-12)
    but their code is not in the C source.  The model follows the
    specification (sections 3 and 4.1): a scanner over the format string
    that copies literal bytes, parses a directive (flags, width, precision,
    length modifier, conversion), queues its [*] side-channel requests
    before the value request, reports byte widths, and renders a directive
    once its value bytes are pushed.  Each parser call returns the bytes it
    emits; the glue below writes them to the sink. *)

(** Platform sizes and the collaborators the renderer reads: the C
    string stored at an address (for [%s]) and the float renderer
    (floating-point text is outside this development). *)
Record penv := {
  long_size : Z;
  ptr_size : Z;
  cstring_at : Z -> list ascii;
  render_float : ascii -> list Z -> list ascii
}.

Inductive wspec := WLit (n : Z) | WStar.

Inductive lenmod :=
| LenNone | LenChar | LenShort | LenLong | LenLongLong | LenSize | LenPtrdiff.

Inductive conv :=
| CSigned | CUnsigned | COctal | CHexLower | CHexUpper
| CFloatFixed | CFloatExp | CFloatGeneral
| CString | CChar | CPointer | CPercent | CCountOut.

Record dspec := mk_dspec {
  fl_left : bool; fl_zero : bool; fl_plus : bool; fl_space : bool; fl_alt : bool;
  d_width : option wspec;
  d_prec : option wspec;
  d_len : lenmod
}.

Definition dspec0 : dspec := mk_dspec false false false false false None None LenNone.

Definition set_left (d : dspec) : dspec :=
  mk_dspec true (fl_zero d) (fl_plus d) (fl_space d) (fl_alt d) (d_width d) (d_prec d) (d_len d).
Definition set_zero (d : dspec) : dspec :=
  mk_dspec (fl_left d) true (fl_plus d) (fl_space d) (fl_alt d) (d_width d) (d_prec d) (d_len d).
Definition set_plus (d : dspec) : dspec :=
  mk_dspec (fl_left d) (fl_zero d) true (fl_space d) (fl_alt d) (d_width d) (d_prec d) (d_len d).
Definition set_space (d : dspec) : dspec :=
  mk_dspec (fl_left d) (fl_zero d) (fl_plus d) true (fl_alt d) (d_width d) (d_prec d) (d_len d).
Definition set_alt (d : dspec) : dspec :=
  mk_dspec (fl_left d) (fl_zero d) (fl_plus d) (fl_space d) true (d_width d) (d_prec d) (d_len d).
Definition set_width (w : option wspec) (d : dspec) : dspec :=
  mk_dspec (fl_left d) (fl_zero d) (fl_plus d) (fl_space d) (fl_alt d) w (d_prec d) (d_len d).
Definition set_prec (p : option wspec) (d : dspec) : dspec :=
  mk_dspec (fl_left d) (fl_zero d) (fl_plus d) (fl_space d) (fl_alt d) (d_width d) p (d_len d).
Definition set_len (l : lenmod) (d : dspec) : dspec :=
  mk_dspec (fl_left d) (fl_zero d) (fl_plus d) (fl_space d) (fl_alt d) (d_width d) (d_prec d) l.

(** Where the directive scanner is: flags, width digits, after a [*]
    width, just after [.], precision digits, after a [*] precision,
    after one [h], after one [l], after the length modifier. *)
Inductive phase :=
| PFlags | PWidth | PAfterWidth | PPrecStart | PPrec | PAfterPrec
| PLenH | PLenL | PAfterLen.

Inductive dstep_result :=
| DCont (ph : phase) (d : dspec)
| DConv (k : conv) (c : ascii)
| DBad (e : fmt_error).

Definition is_digit (c : ascii) : bool :=
  (48 <=? nat_of_ascii c)%nat && (nat_of_ascii c <=? 57)%nat.
Definition digit_val (c : ascii) : Z := Z.of_nat (nat_of_ascii c) - 48.

Definition lit_of (w : option wspec) : Z :=
  match w with Some (WLit n) => n | _ => 0 end.

Definition conv_of (c : ascii) : dstep_result :=
  if Ascii.eqb c "d" || Ascii.eqb c "i" then DConv CSigned c
  else if Ascii.eqb c "u" then DConv CUnsigned c
  else if Ascii.eqb c "o" then DConv COctal c
  else if Ascii.eqb c "x" then DConv CHexLower c
  else if Ascii.eqb c "X" then DConv CHexUpper c
  else if Ascii.eqb c "f" || Ascii.eqb c "F" then DConv CFloatFixed c
  else if Ascii.eqb c "e" || Ascii.eqb c "E" then DConv CFloatExp c
  else if Ascii.eqb c "g" || Ascii.eqb c "G" then DConv CFloatGeneral c
  else if Ascii.eqb c "s" then DConv CString c
  else if Ascii.eqb c "c" then DConv CChar c
  else if Ascii.eqb c "p" then DConv CPointer c
  else if Ascii.eqb c "%" then DConv CPercent c
  else if Ascii.eqb c "n" then DConv CCountOut c
  else DBad UnsupportedConversion.

(** Length modifier or conversion character. *)
Definition after_numbers (d : dspec) (c : ascii) : dstep_result :=
  if Ascii.eqb c "h" then DCont PLenH (set_len LenShort d)
  else if Ascii.eqb c "l" then DCont PLenL (set_len LenLong d)
  else if Ascii.eqb c "z" then DCont PAfterLen (set_len LenSize d)
  else if Ascii.eqb c "t" then DCont PAfterLen (set_len LenPtrdiff d)
  else if Ascii.eqb c "L" then DBad UnsupportedConversion
  else conv_of c.

Definition width_start (d : dspec) (c : ascii) : dstep_result :=
  if is_digit c then DCont PWidth (set_width (Some (WLit (digit_val c))) d)
  else if Ascii.eqb c "*" then DCont PAfterWidth (set_width (Some WStar) d)
  else if Ascii.eqb c "." then DCont PPrecStart (set_prec (Some (WLit 0)) d)
  else after_numbers d c.

(** One character of a directive. *)
Definition dstep (ph : phase) (d : dspec) (c : ascii) : dstep_result :=
  match ph with
  | PFlags =>
      if Ascii.eqb c "-" then DCont PFlags (set_left d)
      else if Ascii.eqb c "0" then DCont PFlags (set_zero d)
      else if Ascii.eqb c "+" then DCont PFlags (set_plus d)
      else if Ascii.eqb c " " then DCont PFlags (set_space d)
      else if Ascii.eqb c "#" then DCont PFlags (set_alt d)
      else width_start d c
  | PWidth =>
      if is_digit c
      then DCont PWidth (set_width (Some (WLit (10 * lit_of (d_width d) + digit_val c))) d)
      else if Ascii.eqb c "." then DCont PPrecStart (set_prec (Some (WLit 0)) d)
      else after_numbers d c
  | PAfterWidth =>
      if Ascii.eqb c "." then DCont PPrecStart (set_prec (Some (WLit 0)) d)
      else after_numbers d c
  | PPrecStart =>
      if is_digit c then DCont PPrec (set_prec (Some (WLit (digit_val c))) d)
      else if Ascii.eqb c "*" then DCont PAfterPrec (set_prec (Some WStar) d)
      else after_numbers d c
  | PPrec =>
      if is_digit c
      then DCont PPrec (set_prec (Some (WLit (10 * lit_of (d_prec d) + digit_val c))) d)
      else after_numbers d c
  | PAfterPrec => after_numbers d c
  | PLenH => if Ascii.eqb c "h" then DCont PAfterLen (set_len LenChar d) else conv_of c
  | PLenL => if Ascii.eqb c "l" then DCont PAfterLen (set_len LenLongLong d) else conv_of c
  | PAfterLen => conv_of c
  end.

Inductive scan_result :=
| SEnd
| SFound (d : dspec) (k : conv) (c : ascii) (rest : list ascii)
| SErr (e : fmt_error).

(** The scanning part of [advance], one character at a time: in literal
    mode ([None]) bytes are emitted; inside a directive ([Some (ph, d)])
    the directive is parsed; [%%] is rendered inline.  The scan stops at
    the end of the string, at the first directive that needs an
    argument, or at a format error. *)
Fixpoint scan_from (mode : option (phase * dspec)) (s : list ascii)
  : list ascii * scan_result :=
  match s, mode with
  | [], None => ([], SEnd)
  | [], Some _ => ([], SErr FormatSyntaxError)
  | c :: s', None =>
      if Ascii.eqb c "%" then scan_from (Some (PFlags, dspec0)) s'
      else let (o, r) := scan_from None s' in (c :: o, r)
  | c :: s', Some (ph, d) =>
      match dstep ph d c with
      | DCont ph' d' => scan_from (Some (ph', d')) s'
      | DConv CPercent _ => let (o, r) := scan_from None s' in ("%"%char :: o, r)
      | DConv k ck => ([], SFound d k ck s')
      | DBad e => ([], SErr e)
      end
  end.

Definition scan (s : list ascii) : list ascii * scan_result := scan_from None s.

(** Outstanding argument requests of the parsed directive: the [*]
    width, the [*] precision, then the value itself. *)
Inductive req := RWidth | RPrec | RValue (w : Z).

Definition req_width (r : req) : Z :=
  match r with RWidth | RPrec => 4 | RValue w => w end.

Record pstate := mk_pstate {
  ps_rest : list ascii;
  ps_queue : list req;
  ps_pending : option (dspec * conv * ascii);
  ps_awaiting : bool
}.

Definition printf_parser_init (format : string) : pstate :=
  mk_pstate (list_ascii_of_string format) [] None false.

(** Little-endian bytes of an argument and their value. *)
Fixpoint le_bytes (n : nat) (v : Z) : list Z :=
  match n with
  | O => []
  | S n' => Z.land v 255 :: le_bytes n' (Z.shiftr v 8)
  end.

Definition le_value (bs : list Z) : Z :=
  fold_right (fun b acc => b + 256 * acc) 0 bs.

Definition to_signed (bits u : Z) : Z :=
  if 2 ^ (bits - 1) <=? u then u - 2 ^ bits else u.

Definition digit_char (upper : bool) (d : Z) : ascii :=
  if d <? 10 then ascii_of_nat (Z.to_nat (48 + d))
  else ascii_of_nat (Z.to_nat ((if upper then 55 else 87) + d)).

Fixpoint digits_aux (fuel : nat) (upper : bool) (base v : Z) (acc : list ascii) : list ascii :=
  match fuel with
  | O => acc
  | S f =>
      let acc' := digit_char upper (v mod base) :: acc in
      if v / base =? 0 then acc' else digits_aux f upper base (v / base) acc'
  end.

(** Digits of a nonnegative magnitude in [base]: at most one digit per bit. *)
Definition digits (upper : bool) (base v : Z) : list ascii :=
  digits_aux (S (Z.to_nat (Z.log2 v))) upper base v [].

Definition pad (n : Z) (c : ascii) : list ascii := repeat c (Z.to_nat n).

Definition width_of (d : dspec) : Z := lit_of (d_width d).

(** Field padding of a rendered body (spaces, left or right). *)
Definition justify (d : dspec) (body : list ascii) : list ascii :=
  let n := width_of d - Z.of_nat (length body) in
  if fl_left d then body ++ pad n " " else pad n " " ++ body.

(** Integer conversions: sign, alternate-form prefix, precision zeros,
    then width padding with spaces or, with [0] and no precision, zeros. *)
Definition render_int (d : dspec) (signed neg : bool) (mag base : Z) (upper : bool)
  : list ascii :=
  let ds0 := match d_prec d with
             | Some (WLit 0) => if mag =? 0 then [] else digits upper base mag
             | _ => digits upper base mag
             end in
  let ds1 := pad (lit_of (d_prec d) - Z.of_nat (length ds0)) "0" ++ ds0 in
  let ds := if fl_alt d && (base =? 8) then
              match ds1 with "0"%char :: _ => ds1 | _ => "0"%char :: ds1 end
            else ds1 in
  let prefix := if fl_alt d && (base =? 16) && negb (mag =? 0)
                then ["0"%char; if upper then "X"%char else "x"%char] else [] in
  let sign := if neg then ["-"%char]
              else if signed && fl_plus d then ["+"%char]
              else if signed && fl_space d then [" "%char] else [] in
  let body := sign ++ prefix ++ ds in
  let n := width_of d - Z.of_nat (length body) in
  if fl_left d then body ++ pad n " "
  else if fl_zero d && (match d_prec d with None => true | _ => false end)
  then sign ++ prefix ++ pad n "0" ++ ds
  else pad n " " ++ body.

Section Parser.
Variable E : penv.

(** Byte width of the value argument, after default promotions. *)
Definition arg_width (d : dspec) (k : conv) : Z :=
  match k with
  | CFloatFixed | CFloatExp | CFloatGeneral => 8
  | CString | CPointer | CCountOut => ptr_size E
  | CChar => 4
  | CPercent => 0
  | _ =>
      match d_len d with
      | LenNone | LenChar | LenShort => 4
      | LenLong => long_size E
      | LenLongLong => 8
      | LenSize | LenPtrdiff => ptr_size E
      end
  end.

(** Bit width of the declared integer type. *)
Definition int_bits (d : dspec) : Z :=
  match d_len d with
  | LenChar => 8 | LenShort => 16 | LenNone => 32
  | LenLong => 8 * long_size E | LenLongLong => 64
  | LenSize | LenPtrdiff => 8 * ptr_size E
  end.

Definition star_reqs (d : dspec) : list req :=
  (match d_width d with Some WStar => [RWidth] | _ => [] end) ++
  (match d_prec d with Some WStar => [RPrec] | _ => [] end).

Definition printf_parser_advance (st : pstate) : list ascii * pstate * res Z :=
  if ps_awaiting st then ([], st, Err ParserMisuse)
  else
    match ps_queue st with
    | r :: _ =>
        ([], mk_pstate (ps_rest st) (ps_queue st) (ps_pending st) true, Ok (req_width r))
    | [] =>
        match scan (ps_rest st) with
        | (out, SEnd) => (out, mk_pstate [] [] None false, Ok 0)
        | (out, SFound d k c t) =>
            let q := star_reqs d ++ [RValue (arg_width d k)] in
            (out, mk_pstate t q (Some (d, k, c)) true,
             Ok (match q with r :: _ => req_width r | [] => 0 end))
        | (out, SErr e) => (out, st, Err e)
        end
    end.

(** Rendering of the pending directive once its value bytes arrive. *)
Definition render (d : dspec) (k : conv) (c : ascii) (bytes : list Z) : res (list ascii) :=
  let bits := int_bits d in
  let u := le_value bytes mod 2 ^ bits in
  match k with
  | CSigned =>
      let v := to_signed bits u in
      Ok (render_int d true (v <? 0) (Z.abs v) 10 false)
  | CUnsigned => Ok (render_int d false false u 10 false)
  | COctal => Ok (render_int d false false u 8 false)
  | CHexLower => Ok (render_int d false false u 16 false)
  | CHexUpper => Ok (render_int d false false u 16 true)
  | CFloatFixed | CFloatExp | CFloatGeneral => Ok (justify d (render_float E c bytes))
  | CString =>
      let s := cstring_at E (le_value bytes) in
      let s' := match d_prec d with
                | Some (WLit p) => firstn (Z.to_nat p) s
                | _ => s
                end in
      Ok (justify d s')
  | CChar => Ok (justify d [ascii_of_nat (Z.to_nat (le_value bytes mod 256))])
  | CPointer => Ok (justify d ("0"%char :: "x"%char :: digits false 16 (le_value bytes)))
  | CPercent => Ok ["%"%char]
  | CCountOut => Err UnsupportedConversion
  end.

(** [push_arg]: satisfies the head request of the queue: a [*] width
    (negative means left-justified), a [*] precision (negative means
    absent), or the value, which is rendered. *)
Definition printf_parser_push_arg (st : pstate) (bytes : list Z) : list ascii * pstate * res unit :=
  if negb (ps_awaiting st) then ([], st, Err ParserMisuse)
  else
    match ps_queue st, ps_pending st with
    | RWidth :: q, Some (d, k, c) =>
        let w := to_signed 32 (le_value bytes mod 2 ^ 32) in
        let d' := if w <? 0 then set_width (Some (WLit (- w))) (set_left d)
                  else set_width (Some (WLit w)) d in
        ([], mk_pstate (ps_rest st) q (Some (d', k, c)) false, Ok tt)
    | RPrec :: q, Some (d, k, c) =>
        let p := to_signed 32 (le_value bytes mod 2 ^ 32) in
        let d' := if p <? 0 then set_prec None d else set_prec (Some (WLit p)) d in
        ([], mk_pstate (ps_rest st) q (Some (d', k, c)) false, Ok tt)
    | RValue _ :: q, Some (d, k, c) =>
        match render d k c bytes with
        | Ok out => (out, mk_pstate (ps_rest st) q None false, Ok tt)
        | Err e => ([], st, Err e)
        end
    | _, _ => ([], st, Err ParserMisuse)
    end.
End Parser.

(** ** The output sink

    Modelled from the spec (sections 3, 4.3 and 6): the sink owned by a
    parser is either the console (unbounded) or the caller's buffer of
    capacity [cap] (bounded).  A bounded sink stores content bytes while
    [written < cap - 1], keeps a terminator right after the last content
    byte when [cap > 0], and counts the logical length in every case. *)
Inductive sink_kind := Unbounded | Bounded (cap : nat).

Record sink := mk_sink {
  sk_kind : sink_kind;
  sk_buf : list ascii;
  sk_written : nat;
  sk_logical : nat;
  sk_truncated : bool
}.

Definition NUL : ascii := Ascii.zero.

Definition sink_putc (sk : sink) (c : ascii) : sink :=
  match sk_kind sk with
  | Unbounded =>
      mk_sink Unbounded (sk_buf sk ++ [c]) (S (sk_written sk)) (S (sk_logical sk))
        (sk_truncated sk)
  | Bounded cap =>
      let w := sk_written sk in
      if (S w <? cap)%nat
      then mk_sink (Bounded cap) (<[S w := NUL]> (<[w := c]> (sk_buf sk))) (S w)
             (S (sk_logical sk)) (sk_truncated sk)
      else mk_sink (Bounded cap) (sk_buf sk) w (S (sk_logical sk)) true
  end.

Definition sink_write (sk : sink) (out : list ascii) : sink := fold_left sink_putc out sk.

Definition sink_console : sink := mk_sink Unbounded [] 0 0 false.

Definition sink_bounded (cap : nat) (buf : list ascii) : sink :=
  mk_sink (Bounded cap) (if (0 <? cap)%nat then <[0%nat := NUL]> buf else buf) 0 0 false.

(** ** Glue: a [struct PrintfParser] is the scanner state with its sink *)
Definition parser := (pstate * sink)%type.

Definition printf_parser_new (format : string) : parser :=
  (printf_parser_init format, sink_console).

(** [size] is the [uint32_t] parameter of [printf_parser_new_with_buf]. *)
Definition printf_parser_new_with_buf (format : string) (buf : list ascii) (size : Z) : parser :=
  (printf_parser_init format, sink_bounded (Z.to_nat size) buf).

Definition parser_advance (E : penv) (p : parser) : parser * res Z :=
  let '(out, st, r) := printf_parser_advance E (fst p) in ((st, sink_write (snd p) out), r).

Definition parser_push_arg (E : penv) (p : parser) (bytes : list Z) : parser * res unit :=
  let '(out, st, r) := printf_parser_push_arg E (fst p) bytes in ((st, sink_write (snd p) out), r).

(** Modelled from the spec: [va_arg_ptr] (used by do_printf, not defined
    in the C source).  The variadic arguments are a sequence of values;
    a pull of [n] bytes yields the [n] little-endian bytes of the next
    value and fails with [ArgumentExhausted] when none is left. *)
Definition va_arg_ptr (args : list Z) (n : Z) : res (list Z * list Z) :=
  match args with
  | [] => Err ArgumentExhausted
  | v :: rest => Ok (le_bytes (Z.to_nat n) v, rest)
  end.

(** [do_printf] on the parser above; the [while (true)] loop gets one
    round per byte of the format string plus one. *)
Definition loop_fuel (format : string) : nat := S (length (list_ascii_of_string format)).

Definition do_printf_c (E : penv) (p : parser) (format : string) (args : list Z)
  : trace * outcome (P:=parser) (A:=list Z) :=
  do_printf (parser_advance E) (parser_push_arg E) va_arg_ptr (loop_fuel format) p args.

(** ** The C entry points on a machine state

    The machine holds the process-wide [errno] (fakelibc.c, line 102)
    and the console.  A call either returns (with [None] when the C
    function ends without a [return] statement), panics through
    [panic_c], or does not terminate. *)
Record machine := mk_machine { m_errno : Z; m_stdout : list ascii }.

Inductive call_result :=
| Returned (m : machine) (ret : option Z)
| Panicked (m : machine) (msg : string)
| Diverged (m : machine).

(** [panic_c] (external): the message is reported and the call never returns. *)
Definition panic_c (m : machine) (msg : string) : call_result := Panicked m msg.

Definition error_msg (e : fmt_error) : string :=
  match e with
  | FormatSyntaxError => "format syntax error"
  | UnsupportedConversion => "unsupported conversion"
  | ArgumentExhausted => "argument exhausted"
  | ParserMisuse => "printf parser misuse"
  end.

Definition emit_console (m : machine) (sk : sink) : machine :=
  mk_machine (m_errno m) (m_stdout m ++ sk_buf sk).

(** vfprintf (lines 70-76): the stream argument is not used. *)
Definition vfprintf (E : penv) (m : machine) (stream : Z) (format : string) (args : list Z)
  : call_result :=
  let parser := printf_parser_new format in
  match snd (do_printf_c E parser format args) with
  | Finished (_, sk) _ => Returned (emit_console m sk) None
  | Failed e (_, sk) => panic_c (emit_console m sk) (error_msg e)
  | OutOfFuel (_, sk) _ => Diverged (emit_console m sk)
  end.

Definition stdout_handle : Z := 1.

(** printf (lines 47-55): the result of vfprintf is dropped. *)
Definition printf (E : penv) (m : machine) (format : string) (args : list Z) : call_result :=
  match vfprintf E m stdout_handle format args with
  | Returned m' _ => Returned m' None
  | r => r
  end.

(** vsnprintf (lines 78-82) on the caller's buffer [str] of [size] bytes;
    the [size_t] size is narrowed to the [uint32_t] parameter. *)
Definition vsnprintf_run (E : penv) (str : list ascii) (size : Z) (format : string)
  (args : list Z) : trace * outcome (P:=parser) (A:=list Z) :=
  let parser := printf_parser_new_with_buf format str (size mod 2 ^ 32) in
  do_printf_c E parser format args.

Definition vsnprintf (E : penv) (m : machine) (str : list ascii) (size : Z) (format : string)
  (args : list Z) : call_result * list ascii :=
  match snd (vsnprintf_run E str size format args) with
  | Finished (_, sk) _ => (Returned m None, sk_buf sk)
  | Failed e (_, sk) => (panic_c m (error_msg e), sk_buf sk)
  | OutOfFuel (_, sk) _ => (Diverged m, sk_buf sk)
  end.

(** snprintf (lines 60-68): the result of vsnprintf is dropped. *)
Definition snprintf (E : penv) (m : machine) (buf : list ascii) (size : Z) (format : string)
  (args : list Z) : call_result * list ascii :=
  match vsnprintf E m buf size format args with
  | (Returned m' _, b) => (Returned m' None, b)
  | r => r
  end.

(** ** The stubs (fakelibc.c, lines 16-43 and 83-100)

    Pointers, integers and doubles are passed as [Z] (a double as its
    bit pattern); none of them is inspected. *)
Definition mkdir (m : machine) (path mode : Z) : call_result := Returned m None.
Definition strstr (m : machine) (haystack needle : Z) : call_result :=
  panic_c m "strstr unimplemented".
Definition strchr (m : machine) (s c : Z) : call_result := panic_c m "strchr unimplemented".
Definition strrchr (m : machine) (s c : Z) : call_result := panic_c m "strrchr unimplemented".
Definition atoi (m : machine) (nptr : Z) : call_result := panic_c m "atoi unimplemented".
Definition atof (m : machine) (nptr : Z) : call_result := panic_c m "atof unimplemented".
Definition abs (m : machine) (j : Z) : call_result := panic_c m "abs unimplemented".
Definition exit (m : machine) (status : Z) : call_result := panic_c m "exit unimplemented".
Definition system (m : machine) (command : Z) : call_result := Returned m (Some 1).
Definition fprintf (m : machine) (stream format : Z) (args : list Z) : call_result :=
  panic_c m "fprintf unimplemented".
Definition rename (m : machine) (old new : Z) : call_result := panic_c m "rename unimplemented".
Definition remove (m : machine) (pathname : Z) : call_result := panic_c m "remove unimplemented".
Definition fflush (m : machine) (stream : Z) : call_result := Returned m None.
Definition sscanf (m : machine) (str format : Z) (args : list Z) : call_result :=
  panic_c m "sscanf unimplemented".
Definition fabs (m : machine) (x : Z) : call_result := panic_c m "fabs unimplemented".
Definition isspace (m : machine) (c : Z) : call_result := panic_c m "isspace unimplemented".

Definition result_machine (r : call_result) : machine :=
  match r with Returned m _ | Panicked m _ | Diverged m => m end.

(** The machine state left by a stub call, and its message when it panics. *)
Definition panics_unimplemented (m : machine) (r : call_result) (name : string) : Prop :=
  r = Panicked m (name ++ " unimplemented").

(** ** Facts about the rounds of a run *)

Lemma rounds_no_advance_zero {A} (pull : A -> Z -> res (list Z * A)) a r :
  rounds pull a r -> forall i, nth_error r i <> Some (EvAdvance 0).
Proof.
  induction 1 as [a|a n arg a1 t Hn Hpull Hr IH]; intros i Hi.
  - destruct i; discriminate.
  - destruct i as [|[|[|i']]]; simpl in Hi; try discriminate.
    + inversion Hi; subst; contradiction.
    + exact (IH i' Hi).
Qed.

Lemma rounds_push_prev {A} (pull : A -> Z -> res (list Z * A)) a r :
  rounds pull a r -> forall i arg, nth_error r i = Some (EvPush arg) ->
  exists n, n <> 0 /\ (2 <= i)%nat /\
    nth_error r (i - 2)%nat = Some (EvAdvance n) /\
    nth_error r (i - 1)%nat = Some (EvPull n arg).
Proof.
  induction 1 as [a|a n arg a1 t Hn Hpull Hr IH]; intros i arg0 Hi.
  - destruct i; discriminate.
  - destruct i as [|[|[|i']]]; simpl in Hi; try discriminate.
    + inversion Hi; subst. exists n. simpl. auto.
    + destruct (IH i' arg0 Hi) as (n' & Hn' & Hle & H2 & H1).
      exists n'. split; [exact Hn' | split; [lia |]].
      replace (S (S (S i')) - 2)%nat with (S (S (S (i' - 2))))%nat by lia.
      replace (S (S (S i')) - 1)%nat with (S (S (S (i' - 1))))%nat by lia.
      simpl. auto.
Qed.

(** ** Facts about the sink *)

Lemma sink_write_app (sk : sink) (a b : list ascii) :
  sink_write sk (a ++ b) = sink_write (sink_write sk a) b.
Proof. unfold sink_write. apply fold_left_app. Qed.

Lemma sink_write_unbounded (sk : sink) (o : list ascii) :
  sk_kind sk = Unbounded ->
  sk_kind (sink_write sk o) = Unbounded /\ sk_buf (sink_write sk o) = sk_buf sk ++ o /\
  sk_logical (sink_write sk o) = (sk_logical sk + length o)%nat.
Proof.
  revert sk; induction o as [|c o IH]; intros sk Hk.
  - simpl. rewrite app_nil_r. repeat split; auto; lia.
  - assert (Hc : sk_kind (sink_putc sk c) = Unbounded /\
                 sk_buf (sink_putc sk c) = sk_buf sk ++ [c] /\
                 sk_logical (sink_putc sk c) = S (sk_logical sk)).
    { unfold sink_putc. rewrite Hk. repeat split. }
    destruct Hc as (Hc1 & Hc2 & Hc3).
    destruct (IH (sink_putc sk c) Hc1) as (H1 & H2 & H3).
    change (sink_write sk (c :: o)) with (sink_write (sink_putc sk c) o).
    rewrite H2, H3, Hc2, Hc3, <- app_assoc. simpl. repeat split; auto; lia.
Qed.

Lemma sink_console_buf (o : list ascii) : sk_buf (sink_write sink_console o) = o.
Proof. apply (sink_write_unbounded sink_console o eq_refl). Qed.

Lemma sink_console_logical (o : list ascii) :
  sk_logical (sink_write sink_console o) = length o.
Proof. apply (sink_write_unbounded sink_console o eq_refl). Qed.

(** State of a bounded sink of capacity [cap > 0] over the buffer [buf]
    after the bytes [o] were written to it. *)
Definition bounded_inv (cap : nat) (buf o : list ascii) (sk : sink) : Prop :=
  let w := Nat.min (length o) (cap - 1) in
  sk_kind sk = Bounded cap /\ sk_written sk = w /\ sk_logical sk = length o /\
  sk_buf sk = take w o ++ [NUL] ++ drop (S w) buf.

Lemma bounded_inv_init (cap : nat) (buf : list ascii) :
  (0 < cap)%nat -> length buf = cap -> bounded_inv cap buf [] (sink_bounded cap buf).
Proof.
  intros Hcap Hlen. destruct buf as [|b rest]; simpl in Hlen; [lia |].
  unfold bounded_inv, sink_bounded; simpl.
  destruct (Nat.ltb_spec 0 cap); [| lia].
  repeat split; reflexivity.
Qed.

Lemma bounded_inv_putc (cap : nat) (buf o : list ascii) (sk : sink) (c : ascii) :
  (0 < cap)%nat -> length buf = cap -> bounded_inv cap buf o sk ->
  bounded_inv cap buf (o ++ [c]) (sink_putc sk c).
Proof.
  intros Hcap Hlen (Hk & Hw & Hl & Hb). unfold sink_putc. rewrite Hk, Hw.
  unfold bounded_inv. rewrite length_app. simpl length.
  destruct (Nat.ltb_spec (S (Nat.min (length o) (cap - 1))) cap) as [Hlt|Hge]; simpl.
  - assert (Hwo : Nat.min (length o) (cap - 1) = length o) by lia.
    rewrite Hwo in *.
    replace (Nat.min (length o + 1) (cap - 1)) with (S (length o)) by lia.
    split; [reflexivity | split; [reflexivity | split; [rewrite Hl; lia |]]].
    rewrite Hb, take_ge by lia.
    rewrite (insert_app_r_alt o) by lia. rewrite Nat.sub_diag. simpl.
    rewrite (insert_app_r_alt o) by lia.
    replace (S (length o) - length o)%nat with 1%nat by lia. simpl.
    destruct (lookup_lt_is_Some_2 buf (S (length o))) as [b Hbv]; [lia |].
    rewrite (drop_S buf b (S (length o)) Hbv). simpl.
    rewrite take_ge by (rewrite length_app; simpl; lia).
    rewrite <- app_assoc. reflexivity.
  - assert (Hwo : Nat.min (length o) (cap - 1) = (cap - 1)%nat) by lia.
    rewrite Hwo in *.
    replace (Nat.min (length o + 1) (cap - 1)) with (cap - 1)%nat by lia.
    split; [reflexivity | split; [reflexivity | split; [rewrite Hl; lia |]]].
    rewrite Hb, take_app_le by lia. reflexivity.
Qed.

Lemma bounded_inv_write (cap : nat) (buf : list ascii) :
  (0 < cap)%nat -> length buf = cap ->
  forall out o sk, bounded_inv cap buf o sk -> bounded_inv cap buf (o ++ out) (sink_write sk out).
Proof.
  intros Hcap Hlen out. induction out as [|c out IH]; intros o sk Hinv.
  - rewrite app_nil_r. exact Hinv.
  - change (sink_write sk (c :: out)) with (sink_write (sink_putc sk c) out).
    replace (o ++ c :: out) with ((o ++ [c]) ++ out) by (rewrite <- app_assoc; reflexivity).
    apply IH. apply bounded_inv_putc; assumption.
Qed.

(** Writing [out] through a fresh bounded sink of capacity [cap]. *)
Lemma sink_bounded_write (cap : nat) (buf out : list ascii) :
  length buf = cap ->
  let sk := sink_write (sink_bounded cap buf) out in
  sk_logical sk = length out /\
  sk_buf sk = (if (cap =? 0)%nat then buf
               else take (Nat.min (length out) (cap - 1)) out ++ [NUL] ++
                    drop (S (Nat.min (length out) (cap - 1))) buf).
Proof.
  intros Hlen. simpl.
  destruct (Nat.eqb_spec cap 0) as [->|Hcap].
  - assert (H : forall sk, sk_kind sk = Bounded 0 ->
              sk_buf (sink_write sk out) = sk_buf sk /\
              sk_logical (sink_write sk out) = (sk_logical sk + length out)%nat).
    { induction out as [|c out IH]; intros sk Hk; simpl; [split; [reflexivity | lia] |].
      assert (Hc : sk_kind (sink_putc sk c) = Bounded 0 /\
                   sk_buf (sink_putc sk c) = sk_buf sk /\
                   sk_logical (sink_putc sk c) = S (sk_logical sk)).
      { unfold sink_putc. rewrite Hk. repeat split. }
      destruct Hc as (Hc1 & Hc2 & Hc3).
      destruct (IH (sink_putc sk c) Hc1) as [H1 H2].
      change (fold_left sink_putc out (sink_putc sk c)) with (sink_write (sink_putc sk c) out).
      rewrite H1, H2, Hc2, Hc3. split; [reflexivity | lia]. }
    destruct (H (sink_bounded 0 buf) eq_refl) as [H1 H2]. rewrite H1, H2. auto.
  - destruct (bounded_inv_write cap buf ltac:(lia) Hlen out [] (sink_bounded cap buf)
                (bounded_inv_init cap buf ltac:(lia) Hlen)) as (_ & _ & Hl & Hb).
    simpl in Hl, Hb. auto.
Qed.

(** ** The run does not depend on the sink

    The parser never reads its sink: a run on any sink is the run on the
    console with the emitted bytes written to that sink instead. *)
Definition outcome_map_sink (f : sink -> sink) (o : outcome (P:=parser) (A:=list Z))
  : outcome (P:=parser) (A:=list Z) :=
  match o with
  | Finished (st, s) a => Finished (st, f s) a
  | Failed e (st, s) => Failed e (st, f s)
  | OutOfFuel (st, s) a => OutOfFuel (st, f s) a
  end.

Lemma parser_advance_eq (E : penv) (st : pstate) (sk : sink) :
  parser_advance E (st, sk) =
  let '(out, st', r) := printf_parser_advance E st in ((st', sink_write sk out), r).
Proof. reflexivity. Qed.

Lemma parser_push_arg_eq (E : penv) (st : pstate) (sk : sink) (arg : list Z) :
  parser_push_arg E (st, sk) arg =
  let '(out, st', r) := printf_parser_push_arg E st arg in ((st', sink_write sk out), r).
Proof. reflexivity. Qed.

Lemma do_printf_any_sink (E : penv) (fuel : nat) (st : pstate) (sk : sink)
  (o0 : list ascii) (args : list Z) :
  do_printf (parser_advance E) (parser_push_arg E) va_arg_ptr fuel (st, sink_write sk o0) args =
  let (t, o) := do_printf (parser_advance E) (parser_push_arg E) va_arg_ptr fuel
                  (st, sink_write sink_console o0) args in
  (t, outcome_map_sink (fun u => sink_write sk (sk_buf u)) o).
Proof.
  revert st o0 args; induction fuel as [|fuel IH]; intros st o0 args.
  - cbn [do_printf outcome_map_sink]. rewrite sink_console_buf. reflexivity.
  - cbn [do_printf]. rewrite !parser_advance_eq.
    destruct (printf_parser_advance E st) as [[out st1] r].
    rewrite <- !sink_write_app.
    destruct r as [n|e].
    + destruct (Z.eqb n 0).
      * cbn [outcome_map_sink]. rewrite sink_console_buf. reflexivity.
      * destruct (va_arg_ptr args n) as [[arg a1]|e].
        -- rewrite !parser_push_arg_eq.
           destruct (printf_parser_push_arg E st1 arg) as [[out2 st2] r2].
           rewrite <- !sink_write_app.
           destruct r2 as [u|e].
           ++ rewrite IH.
              destruct (do_printf (parser_advance E) (parser_push_arg E) va_arg_ptr fuel
                          (st2, sink_write sink_console ((o0 ++ out) ++ out2)) a1).
              reflexivity.
           ++ cbn [outcome_map_sink]. rewrite sink_console_buf. reflexivity.
        -- cbn [outcome_map_sink]. rewrite sink_console_buf. reflexivity.
    + cbn [outcome_map_sink]. rewrite sink_console_buf. reflexivity.
Qed.

(** ** Progress of the scanner *)

Definition star_count (d : dspec) : nat :=
  ((match d_width d with Some WStar => 1 | _ => 0 end) +
   (match d_prec d with Some WStar => 1 | _ => 0 end))%nat.

Lemma star_reqs_length (d : dspec) : length (star_reqs d) = star_count d.
Proof.
  destruct d as [l z pl sp al w p ln]; unfold star_reqs, star_count; simpl.
  destruct w as [[]|], p as [[]|]; reflexivity.
Qed.

Ltac split_ifs :=
  repeat match goal with
         | |- context [if ?b then _ else _] => destruct b
         end.

(** One directive character adds at most one [*] request. *)
Lemma dstep_star (ph : phase) (d : dspec) (c : ascii) (ph' : phase) (d' : dspec) :
  dstep ph d c = DCont ph' d' -> (star_count d' <= S (star_count d))%nat.
Proof.
  destruct d as [l z pl sp al w p ln].
  destruct ph; unfold dstep, width_start, after_numbers, conv_of; split_ifs;
    intros H; inversion H; subst; unfold star_count; simpl;
    destruct w as [[]|]; destruct p as [[]|]; simpl; lia.
Qed.

(** A directive that needs an argument spans at least two characters
    plus one per [*]. *)
Lemma scan_from_found (mode : option (phase * dspec)) (s : list ascii) (o : list ascii)
  (d : dspec) (k : conv) (c : ascii) (t : list ascii) :
  scan_from mode s = (o, SFound d k c t) ->
  (length t + star_count d + 2 <=
   length s + match mode with None => 0 | Some (_, d0) => S (star_count d0) end)%nat.
Proof.
  revert mode o; induction s as [|c0 s' IH]; intros mode o Hs.
  - destruct mode as [[ph d0]|]; discriminate.
  - destruct mode as [[ph d0]|]; cbn [scan_from] in Hs.
    + destruct (dstep ph d0 c0) as [ph' d'|k0 ck|e] eqn:Hd.
      * specialize (IH _ _ Hs). pose proof (dstep_star _ _ _ _ _ Hd). simpl in *. lia.
      * destruct k0;
          try (inversion Hs; subst; simpl; lia).
        destruct (scan_from None s') as [o1 r1] eqn:Hs1. inversion Hs; subst.
        specialize (IH _ _ Hs1). simpl in *. lia.
      * discriminate.
    + destruct (Ascii.eqb c0 "%").
      * specialize (IH _ _ Hs). simpl in *. change (star_count dspec0) with 0%nat in IH. lia.
      * destruct (scan_from None s') as [o1 r1] eqn:Hs1. inversion Hs; subst.
        specialize (IH _ _ Hs1). simpl in *. lia.
Qed.

(** The parser faults only with format errors, never with
    [ArgumentExhausted]. *)
Lemma dstep_bad (ph : phase) (d : dspec) (c : ascii) (e : fmt_error) :
  dstep ph d c = DBad e -> e = UnsupportedConversion.
Proof.
  destruct ph; unfold dstep, width_start, after_numbers, conv_of; split_ifs;
    intros H; inversion H; reflexivity.
Qed.

Lemma scan_from_err (mode : option (phase * dspec)) (s o : list ascii) (e : fmt_error) :
  scan_from mode s = (o, SErr e) -> e <> ArgumentExhausted.
Proof.
  revert mode o; induction s as [|c0 s' IH]; intros mode o Hs.
  - destruct mode as [[ph d0]|]; inversion Hs; discriminate.
  - destruct mode as [[ph d0]|]; cbn [scan_from] in Hs.
    + destruct (dstep ph d0 c0) as [ph' d'|k0 ck|e'] eqn:Hd.
      * exact (IH _ _ Hs).
      * destruct k0; try discriminate.
        destruct (scan_from None s') as [o1 r1] eqn:Hs1. inversion Hs; subst.
        exact (IH _ _ Hs1).
      * inversion Hs; subst. rewrite (dstep_bad _ _ _ _ Hd). discriminate.
    + destruct (Ascii.eqb c0 "%").
      * exact (IH _ _ Hs).
      * destruct (scan_from None s') as [o1 r1] eqn:Hs1. inversion Hs; subst.
        exact (IH _ _ Hs1).
Qed.

Lemma parser_advance_not_exhausted (E : penv) (p p1 : parser) (e : fmt_error) :
  parser_advance E p = (p1, Err e) -> e <> ArgumentExhausted.
Proof.
  destruct p as [st sk]. unfold parser_advance, printf_parser_advance; simpl.
  destruct (ps_awaiting st); [intros H; inversion H; discriminate |].
  destruct (ps_queue st); [| intros H; inversion H].
  unfold scan. destruct (scan_from None (ps_rest st)) as [o [|d k c t|e']] eqn:Hs;
    intros H; inversion H; subst.
  exact (scan_from_err _ _ _ _ Hs).
Qed.

Lemma parser_push_not_exhausted (E : penv) (p : parser) (arg : list Z) (p1 : parser)
  (e : fmt_error) :
  parser_push_arg E p arg = (p1, Err e) -> e <> ArgumentExhausted.
Proof.
  destruct p as [st sk]. unfold parser_push_arg, printf_parser_push_arg; simpl.
  destruct (ps_awaiting st); simpl; [| intros H; inversion H; discriminate].
  destruct (ps_queue st) as [|[| |w] q]; destruct (ps_pending st) as [[[d k] c]|];
    try (intros H; inversion H; discriminate).
  unfold render. destruct k; intros H; inversion H; discriminate.
Qed.

(** A successful push answers the head request and makes the parser
    ready for the next advance. *)
Lemma push_arg_ok (E : penv) (st : pstate) (arg : list Z) (out : list ascii)
  (st2 : pstate) (u : unit) :
  printf_parser_push_arg E st arg = (out, st2, Ok u) ->
  ps_awaiting st2 = false /\ ps_rest st2 = ps_rest st /\
  exists r, ps_queue st = r :: ps_queue st2.
Proof.
  unfold printf_parser_push_arg.
  destruct (ps_awaiting st); simpl; [| intros H; inversion H].
  destruct (ps_queue st) as [|[| |w] q]; destruct (ps_pending st) as [[[d k] c]|];
    intros H; inversion H; subst; simpl; eauto.
  destruct (render E d k c arg); inversion H; subst; simpl; eauto.
Qed.

(** ** Counting the iterations of a run *)

(** Loop iterations: each one starts with a call of advance. *)
Fixpoint iterations (t : trace) : nat :=
  match t with
  | [] => 0
  | EvAdvance _ :: t' | EvAdvanceFault _ :: t' => S (iterations t')
  | _ :: t' => iterations t'
  end.

(** Advances that asked for an argument. *)
Fixpoint nonzero_advances (t : trace) : nat :=
  match t with
  | [] => 0
  | EvAdvance n :: t' => if Z.eqb n 0 then nonzero_advances t' else S (nonzero_advances t')
  | _ :: t' => nonzero_advances t'
  end.

Definition is_out_of_fuel {P A} (o : outcome (P:=P) (A:=A)) : Prop :=
  match o with OutOfFuel _ _ => True | _ => False end.

(** A measure that every complete round decreases bounds the number of
    iterations, and enough fuel makes the loop end on its own. *)
Lemma do_printf_measure {P A} (adv : P -> P * res Z) (push : P -> list Z -> P * res unit)
  (pull : A -> Z -> res (list Z * A)) (I : P -> Prop) (mu : P -> nat)
  (Hpos : forall p, I p -> (1 <= mu p)%nat)
  (Hstep : forall p p1 n arg p2 u, I p -> adv p = (p1, Ok n) -> n <> 0 ->
             push p1 arg = (p2, Ok u) -> I p2 /\ (S (mu p2) <= mu p)%nat) :
  forall fuel p a, I p ->
  let '(t, o) := do_printf adv push pull fuel p a in
  (iterations t <= mu p)%nat /\ ((mu p <= fuel)%nat -> ~ is_out_of_fuel o).
Proof.
  induction fuel as [|fuel IH]; intros p a HI; cbn [do_printf].
  - specialize (Hpos p HI). split; [simpl; lia | intros H; lia].
  - specialize (Hpos p HI).
    destruct (adv p) as [p1 [n|e]] eqn:Ha.
    + destruct (Z.eqb_spec n 0) as [->|Hn].
      * split; [simpl; lia | simpl; auto].
      * destruct (pull a n) as [[arg a1]|e].
        -- destruct (push p1 arg) as [p2 [u|e]] eqn:Hp.
           ++ destruct (Hstep p p1 n arg p2 u HI Ha Hn Hp) as [HI2 Hmu].
              specialize (IH p2 a1 HI2).
              destruct (do_printf adv push pull fuel p2 a1) as [t o].
              destruct IH as [IH1 IH2]. simpl.
              split; [lia | intros Hf; apply IH2; lia].
           ++ split; [simpl; lia | simpl; auto].
        -- split; [simpl; lia | simpl; auto].
    + split; [simpl; lia | simpl; auto].
Qed.

(** For the parser: a parser ready for [advance] with request queue [q]
    and unread format [rest] has at most [|q| + max 1 |rest|] iterations
    left. *)
Definition parser_ready (p : parser) : Prop := ps_awaiting (fst p) = false.

Definition parser_measure (p : parser) : nat :=
  (length (ps_queue (fst p)) + Nat.max 1 (length (ps_rest (fst p))))%nat.

Lemma parser_round_decreases (E : penv) (p p1 : parser) (n : Z) (arg : list Z)
  (p2 : parser) (u : unit) :
  parser_ready p -> parser_advance E p = (p1, Ok n) -> n <> 0 ->
  parser_push_arg E p1 arg = (p2, Ok u) ->
  parser_ready p2 /\ (S (parser_measure p2) <= parser_measure p)%nat.
Proof.
  destruct p as [st sk], p1 as [st1 sk1], p2 as [st2 sk2].
  unfold parser_ready, parser_measure; simpl. intros HI Ha Hn Hp.
  rewrite parser_advance_eq in Ha. rewrite parser_push_arg_eq in Hp.
  destruct (printf_parser_advance E st) as [[out st1'] r] eqn:Hadv.
  inversion Ha; subst; clear Ha.
  destruct (printf_parser_push_arg E st1 arg) as [[out2 st2'] r2] eqn:Hpush.
  inversion Hp; subst; clear Hp.
  destruct (push_arg_ok E st1 arg out2 st2 u Hpush) as (Hw & Hrest & r & Hq).
  split; [exact Hw |].
  unfold printf_parser_advance in Hadv. rewrite HI in Hadv.
  destruct (ps_queue st) as [|r0 q0] eqn:Hq0.
  - unfold scan in Hadv.
    destruct (scan_from None (ps_rest st)) as [o [|d k c t|e]] eqn:Hs;
      inversion Hadv; subst; clear Hadv.
    + contradiction.
    + simpl in Hq, Hrest. rewrite Hrest.
      pose proof (scan_from_found _ _ _ _ _ _ _ Hs) as Hb. simpl in Hb.
      assert (Hl : length (star_reqs d ++ [RValue (arg_width E d k)]) =
                   S (length (ps_queue st2))) by (rewrite Hq; reflexivity).
      rewrite length_app, star_reqs_length in Hl. simpl in Hl.
      lia.
  - inversion Hadv; subst; clear Hadv. simpl in Hq, Hrest. rewrite Hrest.
    inversion Hq; subst. simpl. lia.
Qed.

(** ** Argument exhaustion

    With the spec's argument reader, and collaborators that never raise
    [ArgumentExhausted] themselves, the run fails with
    [ArgumentExhausted] exactly when the advances ask for one argument
    more than there are, and then the run ends on that advance. *)
Lemma do_printf_exhaustion {P} (adv : P -> P * res Z) (push : P -> list Z -> P * res unit)
  (Hadv : forall p p1 e, adv p = (p1, Err e) -> e <> ArgumentExhausted)
  (Hpush : forall p arg p1 e, push p arg = (p1, Err e) -> e <> ArgumentExhausted) :
  forall fuel (p : P) (args : list Z),
  let '(t, o) := do_printf adv push va_arg_ptr fuel p args in
  ((exists q, o = Failed ArgumentExhausted q) <-> nonzero_advances t = S (length args)) /\
  ((exists q, o = Failed ArgumentExhausted q) ->
   exists t' n, n <> 0 /\ t = t' ++ [EvAdvance n]).
Proof.
  induction fuel as [|fuel IH]; intros p args; cbn [do_printf].
  - split; [split; [intros [q Hq]; discriminate | simpl; lia] | intros [q Hq]; discriminate].
  - destruct (adv p) as [p1 [n|e]] eqn:Ha.
    + destruct (Z.eqb_spec n 0) as [->|Hn].
      * split; [split; [intros [q Hq]; discriminate | simpl; lia] |
                intros [q Hq]; discriminate].
      * destruct args as [|v rest]; cbn [va_arg_ptr].
        -- split; [split; [intros _; simpl; rewrite (proj2 (Z.eqb_neq n 0) Hn); reflexivity
                          | intros _; exists p1; reflexivity] |].
           intros _. exists [], n. auto.
        -- destruct (push p1 (le_bytes (Z.to_nat n) v)) as [p2 [u|e]] eqn:Hp.
           ++ specialize (IH p2 rest).
              destruct (do_printf adv push va_arg_ptr fuel p2 rest) as [t o].
              destruct IH as [[IH1 IH2] IH3].
              simpl. rewrite (proj2 (Z.eqb_neq n 0) Hn).
              split; [split; intros H; [f_equal; apply IH1; exact H |
                                        apply IH2; simpl in H; lia] |].
              intros H. destruct (IH3 H) as (t' & m & Hm & ->).
              exists (EvAdvance n :: EvPull n (le_bytes (Z.to_nat n) v)
                        :: EvPush (le_bytes (Z.to_nat n) v) :: t'), m.
              auto.
           ++ pose proof (Hpush _ _ _ _ Hp) as He.
              split; [split; [intros [q Hq]; inversion Hq; contradiction |] |
                      intros [q Hq]; inversion Hq; contradiction].
              simpl. rewrite (proj2 (Z.eqb_neq n 0) Hn). simpl. lia.
    + pose proof (Hadv _ _ _ Ha) as He.
      split; [split; [intros [q Hq]; inversion Hq; contradiction | simpl; lia] |
              intros [q Hq]; inversion Hq; contradiction].
Qed.

(** ** A concrete environment for evaluation

    32-bit [long] and pointers, no strings in memory, no float text. *)
Definition sample_env : penv :=
  {| long_size := 4; ptr_size := 4; cstring_at := fun _ => []; render_float := fun _ _ => [] |}.

Definition sample_machine : machine := mk_machine 0 [].

(** ** The test routines of fakelibc.c (lines 125-134) *)

Definition nl : string := String "010"%char EmptyString.

(** The C string stored in a buffer: its bytes up to the first NUL. *)
Fixpoint c_string (bytes : list ascii) : list ascii :=
  match bytes with
  | [] => []
  | c :: rest => if Ascii.eqb c NUL then [] else c :: c_string rest
  end.

(** The environment once the C string [s] is stored at address [addr]. *)
Definition with_cstring (E : penv) (addr : Z) (s : list ascii) : penv :=
  {| long_size := long_size E; ptr_size := ptr_size E;
     cstring_at := fun x => if Z.eqb x addr then s else cstring_at E x;
     render_float := render_float E |}.

(** test_printf: [name] is the address of the 32-byte local array;
    memset fills it with ['.'], snprintf formats into it, printf prints it. *)
Definition test_printf (E : penv) (m : machine) (name : Z) : call_result :=
  let buf := repeat "."%char 32 in
  match snprintf E m buf 32 "key_multi_msgplayer%i" [3] with
  | (Returned m1 _, buf1) =>
      printf (with_cstring E name (c_string buf1)) m1 ("Test: %s" ++ nl) [name]
  | (r, _) => r
  end.

(** print_long_size: [sizeof(long)] is passed for [%d]. *)
Definition print_long_size (E : penv) (m : machine) : call_result :=
  printf E m ("size of long, is %d" ++ nl) [long_size E].

(** ** The sample program (src/res/sample_program/sample.c)

    Three static function pointers, null until [_start] copies them from
    the host's vtable.  A call through a pointer is a host call, recorded
    in the trace; the host decides whether it returns.  A call through a
    null pointer stops the program.  [vtable.h] is not among the sources:
    the vtable is modelled by the three fields sample.c reads. *)
Module SampleProgram.

Record vtable := mk_vtable { vt_print : Z; vt_exit : Z; vt_panic : Z }.

(** The statics [EXIT], [PRINT], [PANIC]. *)
Record globals := mk_globals { g_EXIT : Z; g_PRINT : Z; g_PANIC : Z }.

Definition globals0 : globals := mk_globals 0 0 0.

Inductive arg := AInt (z : Z) | AStr (s : string).

Inductive call := Call (f : Z) (a : arg).

Inductive stop := NullCall | NoReturn.

Inductive exec (T : Type) :=
| Done (v : T) (g : globals) (tr : list call)
| Stopped (why : stop) (g : globals) (tr : list call).
Arguments Done {T} v g tr.
Arguments Stopped {T} why g tr.

(** A state monad over the statics and the trace of host calls. *)
Definition M (T : Type) : Type := globals -> list call -> exec T.

Definition ret {T} (v : T) : M T := fun g tr => Done v g tr.

Definition bind {T U} (m : M T) (k : T -> M U) : M U :=
  fun g tr => match m g tr with
              | Done v g' tr' => k v g' tr'
              | Stopped why g' tr' => Stopped why g' tr'
              end.

Definition seq {T U} (m : M T) (k : M U) : M U := bind m (fun _ => k).

Definition get : M globals := fun g tr => Done g g tr.
Definition put (g : globals) : M unit := fun _ tr => Done tt g tr.

Section Host.
Variable host_returns : Z -> arg -> bool.

Definition call_ptr (f : Z) (a : arg) : M unit :=
  fun g tr =>
    if Z.eqb f 0 then Stopped NullCall g tr
    else if host_returns f a then Done tt g (tr ++ [Call f a])
    else Stopped NoReturn g (tr ++ [Call f a]).

Definition exit_2 (code : Z) : M unit :=
  bind get (fun g => call_ptr (g_EXIT g) (AInt code)).

Definition print (s : string) : M unit :=
  bind get (fun g => call_ptr (g_PRINT g) (AStr s)).

Definition panic (s : string) : M unit :=
  bind get (fun g => call_ptr (g_PANIC g) (AStr s)).

Definition print_and_exit : M unit :=
  seq (print ("Hello world" ++ nl)) (seq (exit_2 30) (panic ">:(")).

(** [PRINT = vtable->print; EXIT = vtable->exit; PANIC = vtable->panic;
    print_and_exit();] *)
Definition _start (vt : vtable) : M unit :=
  seq (bind get (fun g => put (mk_globals (g_EXIT g) (vt_print vt) (g_PANIC g))))
  (seq (bind get (fun g => put (mk_globals (vt_exit vt) (g_PRINT g) (g_PANIC g))))
  (seq (bind get (fun g => put (mk_globals (g_EXIT g) (g_PRINT g) (vt_panic vt))))
  print_and_exit)).
End Host.

Definition exec_trace {T} (e : exec T) : list call :=
  match e with Done _ _ tr | Stopped _ _ tr => tr end.

Definition exec_globals {T} (e : exec T) : globals :=
  match e with Done _ g _ | Stopped _ g _ => g end.

End SampleProgram.

(** ** Little-endian round trip *)
Lemma le_value_le_bytes (n : nat) (v : Z) :
  le_value (le_bytes n v) = v mod 2 ^ (8 * Z.of_nat n).
Proof.
  revert v; induction n as [|n IH]; intros v.
  - simpl. rewrite Z.mod_1_r. reflexivity.
  - cbn [le_bytes le_value fold_right]. fold (le_value (le_bytes n (Z.shiftr v 8))).
    rewrite IH.
    replace (Z.land v 255) with (v mod 2 ^ 8)
      by (rewrite <- (Z.land_ones v 8) by lia; reflexivity).
    rewrite Z.shiftr_div_pow2 by lia.
    replace (8 * Z.of_nat (S n)) with (8 + 8 * Z.of_nat n) by lia.
    rewrite Z.pow_add_r by lia.
    rewrite Z.rem_mul_r; [reflexivity | apply Z.pow_nonzero; lia | lia].
Qed.


(** ** Rendering with the default directive *)

Lemma pad_nonpos (n : Z) (c : ascii) : n <= 0 -> pad n c = [].
Proof. intros H. unfold pad. replace (Z.to_nat n) with 0%nat by lia. reflexivity. Qed.

Lemma justify_dspec0 (s : list ascii) : justify dspec0 s = s.
Proof.
  unfold justify. cbn [fl_left dspec0].
  rewrite pad_nonpos by (unfold width_of; cbn; lia). reflexivity.
Qed.

Lemma render_int_dspec0 (v : Z) : render_int dspec0 true false v 10 false = digits false 10 v.
Proof.
  unfold render_int. cbn [d_prec dspec0 fl_alt fl_plus fl_space fl_left fl_zero lit_of andb app].
  rewrite (pad_nonpos (0 - _)) by lia.
  rewrite pad_nonpos by (unfold width_of; cbn; lia). reflexivity.
Qed.

Lemma render_signed_dspec0 (E : penv) (c : ascii) (v : Z) :
  0 <= v < 2 ^ 31 -> render E dspec0 CSigned c (le_bytes 4 v) = Ok (digits false 10 v).
Proof.
  intros Hv. unfold render, int_bits. cbn [d_len dspec0].
  rewrite le_value_le_bytes, Z.mod_mod, Z.mod_small by (cbn; lia).
  unfold to_signed.
  replace (2 ^ (32 - 1) <=? v) with false by (symmetry; apply Z.leb_gt; cbn; lia).
  replace (v <? 0) with false by (symmetry; apply Z.ltb_ge; lia).
  rewrite Z.abs_eq by lia. rewrite render_int_dspec0. reflexivity.
Qed.

Lemma render_string_dspec0 (E : penv) (c : ascii) (bytes : list Z) :
  render E dspec0 CString c bytes = Ok (cstring_at E (le_value bytes)).
Proof. unfold render. cbn [d_prec dspec0]. rewrite justify_dspec0. reflexivity. Qed.

Lemma with_cstring_at (E : penv) (a : Z) (s : list ascii) : cstring_at (with_cstring E a s) a = s.
Proof. cbn. rewrite Z.eqb_refl. reflexivity. Qed.

(** ** vsnprintf runs the console run and replays its output into the buffer *)

Lemma vsnprintf_run_console (E : penv) (buf : list ascii) (size : Z) (format : string)
  (args : list Z) :
  vsnprintf_run E buf size format args =
  let (t, o) := do_printf_c E (printf_parser_new format) format args in
  (t, outcome_map_sink
        (fun u => sink_write (sink_bounded (Z.to_nat (size mod 2 ^ 32)) buf) (sk_buf u)) o).
Proof.
  exact (do_printf_any_sink E (loop_fuel format) (printf_parser_init format)
           (sink_bounded (Z.to_nat (size mod 2 ^ 32)) buf) [] args).
Qed.

Lemma sink_write_bounded0 (o : list ascii) :
  forall sk, sk_kind sk = Bounded 0 -> sk_buf (sink_write sk o) = sk_buf sk.
Proof.
  induction o as [|c o IH]; intros sk Hk; [reflexivity |].
  change (sink_write sk (c :: o)) with (sink_write (sink_putc sk c) o).
  rewrite IH; unfold sink_putc; rewrite Hk; reflexivity.
Qed.

(** ** The sample program *)

Lemma sample_call_ptr_nonnull (host : Z -> SampleProgram.arg -> bool) (f : Z)
  (a : SampleProgram.arg) (g : SampleProgram.globals) (tr : list SampleProgram.call) :
  f <> 0 ->
  SampleProgram.call_ptr host f a g tr =
  if host f a then SampleProgram.Done tt g (tr ++ [SampleProgram.Call f a])
  else SampleProgram.Stopped SampleProgram.NoReturn g (tr ++ [SampleProgram.Call f a]).
Proof.
  intros Hf. unfold SampleProgram.call_ptr. apply Z.eqb_neq in Hf. rewrite Hf. reflexivity.
Qed.


Lemma sample_start_eq (host : Z -> SampleProgram.arg -> bool) (vt : SampleProgram.vtable)
  (g : SampleProgram.globals) (tr : list SampleProgram.call) :
  SampleProgram._start host vt g tr =
  SampleProgram.print_and_exit host
    (SampleProgram.mk_globals (SampleProgram.vt_exit vt) (SampleProgram.vt_print vt)
       (SampleProgram.vt_panic vt)) tr.
Proof. destruct vt; reflexivity. Qed.

Lemma sample_print_and_exit_globals (host : Z -> SampleProgram.arg -> bool)
  (g : SampleProgram.globals) (tr : list SampleProgram.call) :
  SampleProgram.exec_globals (SampleProgram.print_and_exit host g tr) = g.
Proof.
  cbv beta iota zeta delta [SampleProgram.print_and_exit SampleProgram.seq SampleProgram.bind
    SampleProgram.get SampleProgram.print SampleProgram.exit_2 SampleProgram.panic
    SampleProgram.call_ptr].
  repeat match goal with
         | |- context [if ?c then _ else _] => destruct c
         end; reflexivity.
Qed.

(* ================================================================== *)
(** * Properties of fakelibc *)

(** C1: every run of [do_printf] is a sequence of rounds "advance
    returns [n <> 0]; one [va_arg_ptr] call for [n] bytes; one
    [push_arg] of exactly the pulled bytes", ended by an advance that
    returned 0 (the loop stops there, immediately), by a fault, or cut
    by the fuel bound. *)
Theorem do_printf_round_protocol {P A} (adv : P -> P * res Z)
  (push : P -> list Z -> P * res unit) (pull : A -> Z -> res (list Z * A))
  (fuel : nat) (p : P) (a : A) :
  let '(t, o) := do_printf adv push pull fuel p a in
  exists r tl, rounds pull a r /\ t = r ++ tl /\
    (tl = [] \/
     (tl = [EvAdvance 0] /\ is_finished o) \/
     (exists n, n <> 0 /\ tl = [EvAdvance n] /\ is_failed o) \/
     (exists e, tl = [EvAdvanceFault e] /\ is_failed o)).
Proof. apply do_printf_shape. Qed.

(** C9: in every run, each [push_arg] comes right after an advance that
    returned a nonzero size (and the pull of that size), and nothing
    follows an advance that returned 0. *)
Theorem do_printf_push_only_after_nonzero {P A} (adv : P -> P * res Z)
  (push : P -> list Z -> P * res unit) (pull : A -> Z -> res (list Z * A))
  (fuel : nat) (p : P) (a : A) :
  let t := fst (do_printf adv push pull fuel p a) in
  (forall i arg, nth_error t i = Some (EvPush arg) ->
     exists n, n <> 0 /\ (2 <= i)%nat /\
       nth_error t (i - 2)%nat = Some (EvAdvance n) /\
       nth_error t (i - 1)%nat = Some (EvPull n arg)) /\
  (forall i j, nth_error t i = Some (EvAdvance 0) -> (i < j)%nat -> nth_error t j = None).
Proof.
  pose proof (do_printf_shape adv push pull fuel p a) as Hs.
  destruct (do_printf adv push pull fuel p a) as [t o]; simpl.
  destruct Hs as (r & tl & Hr & -> & Htl).
  assert (Htl_ev : forall k ev, nth_error tl k = Some ev -> k = 0%nat /\
             ((exists n, ev = EvAdvance n /\ (tl = [EvAdvance 0] /\ n = 0 \/ n <> 0)) \/
              exists e, ev = EvAdvanceFault e)).
  { intros k ev Hk.
    destruct Htl as [-> | [[-> _] | [(n & Hn & -> & _) | (e & -> & _)]]].
    - destruct k; discriminate.
    - destruct k as [|k]; [|destruct k; discriminate].
      inversion Hk; subst. split; [reflexivity | left; exists 0; auto].
    - destruct k as [|k]; [|destruct k; discriminate].
      inversion Hk; subst. split; [reflexivity | left; exists n; auto].
    - destruct k as [|k]; [|destruct k; discriminate].
      inversion Hk; subst. split; [reflexivity | right; exists e; auto]. }
  split.
  - intros i arg Hi.
    destruct (Nat.lt_ge_cases i (length r)) as [Hlt|Hge].
    + rewrite nth_error_app1 in Hi by exact Hlt.
      destruct (rounds_push_prev pull a r Hr i arg Hi) as (n & Hn & Hle & H2 & H1).
      exists n. split; [exact Hn | split; [exact Hle |]].
      rewrite !nth_error_app1 by lia. auto.
    + rewrite nth_error_app2 in Hi by exact Hge.
      destruct (Htl_ev _ _ Hi) as (_ & [(n & Hev & _) | (e & Hev)]); discriminate.
  - intros i j Hi Hij.
    destruct (Nat.lt_ge_cases i (length r)) as [Hlt|Hge].
    + rewrite nth_error_app1 in Hi by exact Hlt.
      exfalso. exact (rounds_no_advance_zero pull a r Hr i Hi).
    + rewrite nth_error_app2 in Hi by exact Hge.
      destruct (Htl_ev _ _ Hi) as (Hk & [(n & Hev & Hcase) | (e & Hev)]); [| discriminate].
      inversion Hev; subst n.
      destruct Hcase as [[-> _] | Hn]; [| contradiction].
      apply nth_error_None. rewrite length_app. simpl. lia.
Qed.

(** C10: [do_printf] stops only on exactly 0: when advance returns a
    negative [int32_t], that value is passed to [va_arg_ptr] as a size
    and the bytes it returns go to [push_arg]. *)
Theorem do_printf_negative_size_pulled {P A} (adv : P -> P * res Z)
  (push : P -> list Z -> P * res unit) (pull : A -> Z -> res (list Z * A))
  (fuel : nat) (p p1 : P) (a a1 : A) (n : Z) (arg : list Z) :
  adv p = (p1, Ok n) -> - 2 ^ 31 <= n < 0 -> pull a n = Ok (arg, a1) ->
  exists t, fst (do_printf adv push pull (S fuel) p a) =
            EvAdvance n :: EvPull n arg :: EvPush arg :: t.
Proof.
  intros Hadv Hn Hpull. simpl. rewrite Hadv.
  destruct (Z.eqb_spec n 0) as [->|_]; [lia |].
  rewrite Hpull.
  destruct (push p1 arg) as [p2 [u|e]].
  - destruct (do_printf adv push pull fuel p2 a1) as [t o]. exists t. reflexivity.
  - exists []. reflexivity.
Qed.

Lemma do_printf_negative_size_pulled_witness :
  (fun _ : unit => (tt, Ok (-1))) tt = (tt, Ok (-1)) /\ - 2 ^ 31 <= -1 < 0 /\
  va_arg_ptr [5] (-1) = Ok ([], []) /\
  exists t, fst (do_printf (fun _ : unit => (tt, Ok (-1))) (fun p _ => (p, Ok tt))
                   va_arg_ptr 1 tt [5]) =
            EvAdvance (-1) :: EvPull (-1) [] :: EvPush [] :: t.
Proof.
  split; [reflexivity | split; [lia | split; [reflexivity |]]].
  apply (do_printf_negative_size_pulled (fun _ : unit => (tt, Ok (-1)))
           (fun p _ => (p, Ok tt)) va_arg_ptr 0 tt tt [5] [] (-1) []);
    [reflexivity | lia | reflexivity].
Defined.

(** C6: no formatting call reads or writes [errno]: the value after the
    call equals the value before, whatever the outcome. *)
Theorem formatting_preserves_errno (E : penv) (m : machine) (stream size : Z)
  (buf : list ascii) (format : string) (args : list Z) :
  m_errno (result_machine (printf E m format args)) = m_errno m /\
  m_errno (result_machine (vfprintf E m stream format args)) = m_errno m /\
  m_errno (result_machine (fst (snprintf E m buf size format args))) = m_errno m /\
  m_errno (result_machine (fst (vsnprintf E m buf size format args))) = m_errno m.
Proof.
  assert (Hv : forall s, m_errno (result_machine (vfprintf E m s format args)) = m_errno m).
  { intros s. unfold vfprintf.
    destruct (snd (do_printf_c E (printf_parser_new format) format args))
      as [[? ?] ? | ? [? ?] | [? ?] ?]; reflexivity. }
  assert (Hs : m_errno (result_machine (fst (vsnprintf E m buf size format args))) = m_errno m).
  { unfold vsnprintf.
    destruct (snd (vsnprintf_run E buf size format args))
      as [[? ?] ? | ? [? ?] | [? ?] ?]; reflexivity. }
  split; [| split; [apply Hv | split; [| exact Hs]]].
  - unfold printf. specialize (Hv stdout_handle).
    destruct (vfprintf E m stdout_handle format args); exact Hv.
  - unfold snprintf.
    destruct (vsnprintf E m buf size format args) as [[] b]; exact Hs.
Qed.

(** C7: every unimplemented stub panics through [panic_c] with the
    message "<name> unimplemented" and leaves the machine unchanged. *)
Theorem unimplemented_stubs_panic (m : machine) (x y : Z) (args : list Z) :
  panics_unimplemented m (strstr m x y) "strstr" /\
  panics_unimplemented m (strchr m x y) "strchr" /\
  panics_unimplemented m (strrchr m x y) "strrchr" /\
  panics_unimplemented m (atoi m x) "atoi" /\
  panics_unimplemented m (atof m x) "atof" /\
  panics_unimplemented m (abs m x) "abs" /\
  panics_unimplemented m (exit m x) "exit" /\
  panics_unimplemented m (fprintf m x y args) "fprintf" /\
  panics_unimplemented m (rename m x y) "rename" /\
  panics_unimplemented m (remove m x) "remove" /\
  panics_unimplemented m (sscanf m x y args) "sscanf" /\
  panics_unimplemented m (fabs m x) "fabs" /\
  panics_unimplemented m (isspace m x) "isspace".
Proof. unfold panics_unimplemented. repeat split. Qed.

(** C8: [system] returns a nonzero value for every command, and [mkdir]
    and [fflush] return without changing the machine. *)
Theorem fixed_stub_boundary (m : machine) (command path mode stream : Z) :
  (exists r, system m command = Returned m (Some r) /\ r <> 0) /\
  mkdir m path mode = Returned m None /\
  fflush m stream = Returned m None.
Proof.
  split; [exists 1; split; [reflexivity | lia] | split; reflexivity].
Qed.

(** C2 (as amended): for a bounded call with buffer size [S < 2^32]
    whose run completes, the buffer receives the first [min(L, S-1)]
    bytes of the would-be output (of length [L], what [printf] prints),
    then one terminator when [S > 0], the rest of the buffer untouched;
    the sink counts [L] as the logical length, but neither [snprintf] nor
    [vsnprintf] returns a value (their bodies have no [return] statement):
    both give the same buffer and no result. *)
Theorem snprintf_bounded_write (E : penv) (m : machine) (buf : list ascii) (size : Z)
  (format : string) (args : list Z) :
  0 <= size < 2 ^ 32 -> length buf = Z.to_nat size ->
  match snd (do_printf_c E (printf_parser_new format) format args) with
  | Finished (_, u) _ =>
      let out := sk_buf u in
      let w := Nat.min (length out) (Z.to_nat size - 1) in
      let r := (Returned m None, if size =? 0 then buf else take w out ++ [NUL] ++ drop (S w) buf) in
      snprintf E m buf size format args = r /\
      vsnprintf E m buf size format args = r /\
      (exists st a skb, snd (vsnprintf_run E buf size format args) = Finished (st, skb) a /\
                        sk_logical skb = length out)
  | _ => True
  end.
Proof.
  intros Hsize Hlen.
  assert (Hrun : vsnprintf_run E buf size format args =
    let (t, o) := do_printf_c E (printf_parser_new format) format args in
    (t, outcome_map_sink (fun u => sink_write (sink_bounded (Z.to_nat size) buf) (sk_buf u)) o)).
  { unfold vsnprintf_run, do_printf_c, printf_parser_new_with_buf, printf_parser_new.
    rewrite Z.mod_small by exact Hsize.
    exact (do_printf_any_sink E (loop_fuel format) (printf_parser_init format)
             (sink_bounded (Z.to_nat size) buf) [] args). }
  unfold snprintf, vsnprintf. rewrite Hrun.
  destruct (do_printf_c E (printf_parser_new format) format args) as [t o]. simpl snd.
  destruct o as [[st u] a | e [st u] | [st u] a]; cbn [outcome_map_sink]; [| exact I | exact I].
  destruct (sink_bounded_write (Z.to_nat size) buf (sk_buf u) Hlen) as [Hl Hb].
  assert (Hbuf : sk_buf (sink_write (sink_bounded (Z.to_nat size) buf) (sk_buf u)) =
    (if size =? 0 then buf
     else take (Nat.min (length (sk_buf u)) (Z.to_nat size - 1)) (sk_buf u) ++ [NUL] ++
          drop (S (Nat.min (length (sk_buf u)) (Z.to_nat size - 1))) buf)).
  { rewrite Hb.
    destruct (Z.eqb_spec size 0) as [->|Hs]; [reflexivity |].
    destruct (Nat.eqb_spec (Z.to_nat size) 0); [lia | reflexivity]. }
  split; [| split].
  - rewrite Hbuf. reflexivity.
  - rewrite Hbuf. reflexivity.
  - exists st, a, (sink_write (sink_bounded (Z.to_nat size) buf) (sk_buf u)).
    split; [reflexivity | exact Hl].
Qed.

Lemma snprintf_bounded_write_witness :
  0 <= 4 < 2 ^ 32 /\ length (repeat "."%char 4) = Z.to_nat 4 /\
  match snd (do_printf_c sample_env (printf_parser_new "hello") "hello" []) with
  | Finished (_, u) _ =>
      let out := sk_buf u in
      let w := Nat.min (length out) (Z.to_nat 4 - 1) in
      let r := (Returned sample_machine None,
                if 4 =? 0 then repeat "."%char 4
                else take w out ++ [NUL] ++ drop (S w) (repeat "."%char 4)) in
      snprintf sample_env sample_machine (repeat "."%char 4) 4 "hello" [] = r /\
      vsnprintf sample_env sample_machine (repeat "."%char 4) 4 "hello" [] = r /\
      (exists st a skb,
         snd (vsnprintf_run sample_env (repeat "."%char 4) 4 "hello" []) = Finished (st, skb) a /\
         sk_logical skb = length out)
  | _ => True
  end.
Proof.
  split; [lia | split; [reflexivity |]].
  apply (snprintf_bounded_write sample_env sample_machine (repeat "."%char 4) 4 "hello" []);
    [lia | reflexivity].
Defined.

(** C2 fails as stated: truncating "hello" into a 4-byte buffer, the
    call does not return the logical length 5 (it returns no value). *)
Lemma snprintf_truncated_returns_no_length :
  ~ (exists m', fst (snprintf sample_env sample_machine (repeat "."%char 4) 4 "hello" []) =
                Returned m' (Some 5)).
Proof. intros [m' H]. vm_compute in H. discriminate. Qed.

(** C3 (as amended): [snprintf] (and [vsnprintf]) into any 32-byte
    buffer with ["key_multi_msgplayer%i"] and 3 writes
    "key_multi_msgplayer3" and one terminator, and leaves the last 11
    bytes as they were; the sink counts 20, and the call returns no
    value. *)
Theorem snprintf_key_multi_msgplayer (E : penv) (m : machine) (buf : list ascii) :
  length buf = 32%nat ->
  let r := (Returned m None,
            list_ascii_of_string "key_multi_msgplayer3" ++ [NUL] ++ drop 21 buf) in
  snprintf E m buf 32 "key_multi_msgplayer%i" [3] = r /\
  vsnprintf E m buf 32 "key_multi_msgplayer%i" [3] = r /\
  (exists st a skb,
     snd (vsnprintf_run E buf 32 "key_multi_msgplayer%i" [3]) =
       Finished (st, skb) a /\ sk_logical skb = 20%nat).
Proof.
  intros Hlen r.
  assert (Hrun := vsnprintf_run_console E buf 32 "key_multi_msgplayer%i" [3]).
  remember (do_printf_c E (printf_parser_new "key_multi_msgplayer%i") "key_multi_msgplayer%i" [3])
    as d eqn:Hd.
  destruct E as [ls ps cs rf]. vm_compute in Hd. subst d.
  change (Z.to_nat (32 mod 2 ^ 32)) with 32%nat in Hrun. cbv beta iota in Hrun.
  set (out := list_ascii_of_string "key_multi_msgplayer3").
  change ["k"%char; "e"%char; "y"%char; "_"%char; "m"%char; "u"%char; "l"%char; "t"%char;
          "i"%char; "_"%char; "m"%char; "s"%char; "g"%char; "p"%char; "l"%char; "a"%char;
          "y"%char; "e"%char; "r"%char; "3"%char] with out in Hrun.
  destruct (sink_bounded_write 32 buf out Hlen) as [Hl Hb].
  cbv zeta in Hl, Hb. change (Nat.min (length out) (32 - 1)) with 20%nat in Hb.
  assert (Hbuf : sk_buf (sink_write (sink_bounded 32 buf) out) = snd r).
  { rewrite Hb. reflexivity. }
  unfold snprintf, vsnprintf. rewrite Hrun. cbn [snd outcome_map_sink sk_buf].
  split; [| split].
  - rewrite Hbuf. reflexivity.
  - rewrite Hbuf. reflexivity.
  - eexists _, _, _. split; [reflexivity | exact Hl].
Qed.

Lemma snprintf_key_multi_msgplayer_witness :
  let buf := repeat "x"%char 32 in
  let r := (Returned sample_machine None,
            list_ascii_of_string "key_multi_msgplayer3" ++ [NUL] ++ drop 21 buf) in
  length buf = 32%nat /\
  snprintf sample_env sample_machine buf 32 "key_multi_msgplayer%i" [3] = r /\
  vsnprintf sample_env sample_machine buf 32 "key_multi_msgplayer%i" [3] = r /\
  (exists st a skb,
     snd (vsnprintf_run sample_env buf 32 "key_multi_msgplayer%i" [3]) =
       Finished (st, skb) a /\ sk_logical skb = 20%nat).
Proof.
  intros buf r. split; [reflexivity |].
  apply (snprintf_key_multi_msgplayer sample_env sample_machine buf). reflexivity.
Defined.

(** C3 fails as stated: the call does not return 20. *)
Lemma snprintf_key_multi_msgplayer_no_return :
  ~ (exists m', fst (snprintf sample_env sample_machine (repeat "."%char 32) 32
                       "key_multi_msgplayer%i" [3]) = Returned m' (Some 20)).
Proof. intros [m' H]. vm_compute in H. discriminate. Qed.

(** C4 (as amended): the loop of a formatting call runs at most
    [max 1 n] iterations for a format string of [n] bytes, and given
    that many rounds it ends by itself (finished or faulted). *)
Theorem format_loop_bounded (E : penv) (sk : sink) (format : string) (args : list Z)
  (fuel : nat) :
  let n := length (list_ascii_of_string format) in
  let '(t, o) := do_printf (parser_advance E) (parser_push_arg E) va_arg_ptr fuel
                   (printf_parser_init format, sk) args in
  (iterations t <= Nat.max 1 n)%nat /\ ((Nat.max 1 n <= fuel)%nat -> ~ is_out_of_fuel o).
Proof.
  apply (do_printf_measure (parser_advance E) (parser_push_arg E) va_arg_ptr
           parser_ready parser_measure).
  - intros p _. unfold parser_measure. lia.
  - intros p p1 n arg p2 u. apply parser_round_decreases.
  - reflexivity.
Qed.

(** C4 fails as stated: on the empty format string the loop runs one
    iteration, more than the length 0. *)
Lemma format_loop_empty_format :
  (String.length "" < iterations (fst (do_printf_c sample_env (printf_parser_new "") "" [])))%nat.
Proof. vm_compute. lia. Qed.

(** C5: a formatting call fails with [ArgumentExhausted] exactly when an
    advance asks for one argument more than were supplied; the call
    then ends on that advance, with no push and no further advance. *)
Theorem argument_exhausted_iff (E : penv) (sk : sink) (format : string) (args : list Z)
  (fuel : nat) :
  let '(t, o) := do_printf (parser_advance E) (parser_push_arg E) va_arg_ptr fuel
                   (printf_parser_init format, sk) args in
  ((exists q, o = Failed ArgumentExhausted q) <-> nonzero_advances t = S (length args)) /\
  ((exists q, o = Failed ArgumentExhausted q) ->
   exists t' n, n <> 0 /\ t = t' ++ [EvAdvance n]).
Proof.
  apply do_printf_exhaustion.
  - apply parser_advance_not_exhausted.
  - apply parser_push_not_exhausted.
Qed.

(* ================================================================== *)
(** * Further properties of fakelibc.c and the sample program *)

(** printf formats exactly as vfprintf does, whatever stream vfprintf is
    given: the stream argument is never used. *)
Theorem printf_is_vfprintf_any_stream (E : penv) (m : machine) (stream : Z)
  (format : string) (args : list Z) :
  printf E m format args = vfprintf E m stream format args.
Proof.
  unfold printf, vfprintf.
  destruct (snd (do_printf_c E (printf_parser_new format) format args))
    as [[st sk] a | e [st sk] | [st sk] a]; reflexivity.
Qed.

(** The size given to snprintf only counts modulo 2^32: it is narrowed to
    the [uint32_t] size of [printf_parser_new_with_buf]. *)
Theorem snprintf_size_wraps (E : penv) (m : machine) (buf : list ascii) (size : Z)
  (format : string) (args : list Z) :
  snprintf E m buf (size + 2 ^ 32) format args = snprintf E m buf size format args.
Proof.
  unfold snprintf, vsnprintf, vsnprintf_run.
  assert (Hm : (size + 2 ^ 32) mod 2 ^ 32 = size mod 2 ^ 32).
  { rewrite <- (Z_mod_plus_full size 1 (2 ^ 32)), Z.mul_1_l. reflexivity. }
  rewrite Hm. reflexivity.
Qed.

(** snprintf ends the way printf ends on the same format and arguments
    (returns, panics with the same message, or runs out of loop rounds),
    but leaves the machine as it was: nothing reaches the console and
    errno is unchanged. *)
Theorem snprintf_fate_of_printf (E : penv) (m : machine) (buf : list ascii) (size : Z)
  (format : string) (args : list Z) :
  fst (snprintf E m buf size format args) =
  match printf E m format args with
  | Returned _ _ => Returned m None
  | Panicked _ msg => Panicked m msg
  | Diverged _ => Diverged m
  end.
Proof.
  unfold snprintf, vsnprintf, printf, vfprintf. rewrite vsnprintf_run_console.
  destruct (do_printf_c E (printf_parser_new format) format args) as [t o]; simpl snd.
  destruct o as [[st u] a | e [st u] | [st u] a]; reflexivity.
Qed.

(** The bytes snprintf stores are the bytes printf prints: printf appends
    some output to the console, and snprintf writes that same output
    through a bounded sink of [size mod 2^32] bytes over the buffer. *)
Theorem snprintf_buffer_of_printf (E : penv) (m : machine) (buf : list ascii) (size : Z)
  (format : string) (args : list Z) :
  exists out,
    m_stdout (result_machine (printf E m format args)) = m_stdout m ++ out /\
    snd (snprintf E m buf size format args) =
      sk_buf (sink_write (sink_bounded (Z.to_nat (size mod 2 ^ 32)) buf) out).
Proof.
  unfold snprintf, vsnprintf, printf, vfprintf. rewrite vsnprintf_run_console.
  destruct (do_printf_c E (printf_parser_new format) format args) as [t o]; simpl snd.
  destruct o as [[st u] a | e [st u] | [st u] a]; exists (sk_buf u); split; reflexivity.
Qed.

(** A size that is a multiple of 2^32 (0 among them) leaves the buffer
    exactly as it was, whatever the format and arguments. *)
Theorem snprintf_zero_size_untouched (E : penv) (m : machine) (buf : list ascii) (size : Z)
  (format : string) (args : list Z) :
  size mod 2 ^ 32 = 0 -> snd (snprintf E m buf size format args) = buf.
Proof.
  intros Hs.
  assert (Hb : forall out,
    sk_buf (sink_write (sink_bounded (Z.to_nat (size mod 2 ^ 32)) buf) out) = buf).
  { intros out. rewrite Hs. apply sink_write_bounded0. reflexivity. }
  unfold snprintf, vsnprintf. rewrite vsnprintf_run_console.
  destruct (do_printf_c E (printf_parser_new format) format args) as [t o]; simpl snd.
  destruct o as [[st u] a | e [st u] | [st u] a]; apply Hb.
Qed.

Lemma snprintf_zero_size_untouched_witness :
  (2 ^ 32) mod 2 ^ 32 = 0 /\
  snd (snprintf sample_env sample_machine (repeat "."%char 3) (2 ^ 32) "abc%d" [7]) =
    repeat "."%char 3.
Proof.
  split; [reflexivity |].
  apply snprintf_zero_size_untouched. reflexivity.
Defined.

(** do_printf pulls no argument beyond those the format uses: when a run
    finishes with the arguments [rest] left over, the same run with
    further arguments appended makes the same pulls and pushes and leaves
    [rest] followed by the extra arguments. *)
Theorem do_printf_extra_args_untouched {P : Type}
  (advance : P -> P * res Z) (push : P -> list Z -> P * res unit)
  (fuel : nat) (p p' : P) (args rest extra : list Z) (t : trace) :
  do_printf advance push va_arg_ptr fuel p args = (t, Finished p' rest) ->
  do_printf advance push va_arg_ptr fuel p (args ++ extra) = (t, Finished p' (rest ++ extra)).
Proof.
  revert p args t; induction fuel as [|fuel IH]; intros p args t H; [discriminate H |].
  cbn [do_printf] in H |- *.
  destruct (advance p) as [p1 [n|e]]; [| discriminate H].
  destruct (Z.eqb n 0).
  - injection H as <- <- <-. reflexivity.
  - destruct args as [|v args]; [discriminate H |]. cbn [va_arg_ptr app] in H |- *.
    destruct (push p1 (le_bytes (Z.to_nat n) v)) as [p2 [u|e]]; [| discriminate H].
    destruct (do_printf advance push va_arg_ptr fuel p2 args) as [t1 o1] eqn:Hd.
    destruct o1 as [p3 a3 | e p3 | p3 a3]; try discriminate H.
    injection H as <- <- <-.
    rewrite (IH p2 args t1 Hd). reflexivity.
Qed.

Lemma do_printf_extra_args_untouched_witness :
  exists t p',
    do_printf (parser_advance sample_env) (parser_push_arg sample_env) va_arg_ptr 3
      (printf_parser_new "%d") [1] = (t, Finished p' []) /\
    do_printf (parser_advance sample_env) (parser_push_arg sample_env) va_arg_ptr 3
      (printf_parser_new "%d") ([1] ++ [2]) = (t, Finished p' ([] ++ [2])).
Proof.
  do 2 eexists. split; [reflexivity |].
  apply do_printf_extra_args_untouched. reflexivity.
Defined.

(** test_printf (lines 125-130): on a 32-bit target (4-byte pointers), the
    local array ends up holding "key_multi_msgplayer3", and the console
    gets "Test: key_multi_msgplayer3" and a newline appended, errno kept. *)
Theorem test_printf_output (E : penv) (m : machine) (name : Z) :
  ptr_size E = 4 -> 0 <= name < 2 ^ 32 ->
  test_printf E m name =
  Returned (mk_machine (m_errno m)
              (m_stdout m ++ list_ascii_of_string ("Test: key_multi_msgplayer3" ++ nl))) None.
Proof.
  intros Hp Hn. destruct m as [er out].
  unfold test_printf.
  set (r := snprintf _ _ _ _ _ _).
  assert (Hr : r = (Returned (mk_machine er out) None,
                     list_ascii_of_string "key_multi_msgplayer3" ++ NUL :: repeat "."%char 11)).
  { destruct E as [ls ps cs rf]; cbn in Hp; subst ps. vm_compute. reflexivity. }
  rewrite Hr. cbv beta iota.
  replace (c_string _) with (list_ascii_of_string "key_multi_msgplayer3")
    by (vm_compute; reflexivity).
  set (s := list_ascii_of_string "key_multi_msgplayer3").
  set (E' := with_cstring E name s).
  assert (Hv : le_value (le_bytes 4 name) = name).
  { rewrite le_value_le_bytes. apply Z.mod_small. cbn; lia. }
  assert (Hp' : ptr_size E' = 4) by exact Hp.
  assert (Hcs : cstring_at E' name = s) by apply with_cstring_at.
  clearbody E'. destruct E' as [ls ps cs rf]; cbn in Hp', Hcs; subst ps.
  unfold printf, vfprintf, do_printf_c.
  cbv -[render le_bytes sink_write sk_buf].
  fold dspec0. rewrite render_string_dspec0. cbn [cstring_at]. rewrite Hv, Hcs.
  cbv -[sink_write sk_buf].
  rewrite <- !sink_write_app.
  change {| sk_kind := Unbounded; sk_buf := []; sk_written := 0; sk_logical := 0;
            sk_truncated := false |} with sink_console.
  rewrite sink_console_buf. subst s. reflexivity.
Qed.

Lemma test_printf_output_witness :
  ptr_size sample_env = 4 /\ 0 <= 4096 < 2 ^ 32 /\
  test_printf sample_env sample_machine 4096 =
  Returned (mk_machine (m_errno sample_machine)
              (m_stdout sample_machine ++
               list_ascii_of_string ("Test: key_multi_msgplayer3" ++ nl))) None.
Proof.
  split; [reflexivity | split; [lia |]].
  apply test_printf_output; [reflexivity | lia].
Defined.

(** print_long_size (lines 132-134): when [sizeof(long)] fits an int, the
    console gets "size of long, is ", its decimal digits and a newline. *)
Theorem print_long_size_output (E : penv) (m : machine) :
  0 <= long_size E < 2 ^ 31 ->
  print_long_size E m =
  Returned (mk_machine (m_errno m)
    (m_stdout m ++ list_ascii_of_string "size of long, is " ++
     digits false 10 (long_size E) ++ list_ascii_of_string nl)) None.
Proof.
  intros Hl. destruct m as [er out].
  destruct E as [ls ps cs rf]; cbn [long_size m_errno m_stdout] in Hl |- *.
  remember (digits false 10 ls) as ds eqn:Hds.
  unfold print_long_size, printf, vfprintf, do_printf_c.
  cbv -[render le_bytes sink_write sk_buf].
  fold dspec0. rewrite render_signed_dspec0, <- Hds by exact Hl.
  cbv -[sink_write sk_buf].
  rewrite <- !sink_write_app.
  change {| sk_kind := Unbounded; sk_buf := []; sk_written := 0; sk_logical := 0;
            sk_truncated := false |} with sink_console.
  rewrite sink_console_buf. reflexivity.
Qed.

Lemma print_long_size_output_witness :
  0 <= long_size sample_env < 2 ^ 31 /\
  print_long_size sample_env sample_machine =
  Returned (mk_machine (m_errno sample_machine)
    (m_stdout sample_machine ++ list_ascii_of_string "size of long, is " ++
     digits false 10 (long_size sample_env) ++ list_ascii_of_string nl)) None.
Proof.
  split; [cbn; lia |].
  apply print_long_size_output. cbn; lia.
Defined.

(** ** The sample program *)

(** Before [_start] has run, the three statics are null: print, exit_2,
    panic and print_and_exit stop at their first call through a null
    pointer, and no host function is called. *)
Theorem sample_calls_before_start_fault (host : Z -> SampleProgram.arg -> bool)
  (s : string) (code : Z) (tr : list SampleProgram.call) :
  let g0 := SampleProgram.globals0 in
  SampleProgram.print host s g0 tr = SampleProgram.Stopped SampleProgram.NullCall g0 tr /\
  SampleProgram.exit_2 host code g0 tr = SampleProgram.Stopped SampleProgram.NullCall g0 tr /\
  SampleProgram.panic host s g0 tr = SampleProgram.Stopped SampleProgram.NullCall g0 tr /\
  SampleProgram.print_and_exit host g0 tr = SampleProgram.Stopped SampleProgram.NullCall g0 tr.
Proof. repeat split. Qed.

(** [_start] installs the host's three function pointers in the statics,
    whatever they held before and however the program then ends. *)
Theorem sample_start_installs_vtable (host : Z -> SampleProgram.arg -> bool)
  (vt : SampleProgram.vtable) (g : SampleProgram.globals) (tr : list SampleProgram.call) :
  SampleProgram.exec_globals (SampleProgram._start host vt g tr) =
  SampleProgram.mk_globals (SampleProgram.vt_exit vt) (SampleProgram.vt_print vt)
    (SampleProgram.vt_panic vt).
Proof.
  rewrite sample_start_eq. apply sample_print_and_exit_globals.
Qed.

(** With non-null vtable entries, [_start] calls the host's print with
    "Hello world\n"; if that returns, exit with 30; and only if exit
    returns, panic with ">:(". *)
Theorem sample_start_host_calls (host : Z -> SampleProgram.arg -> bool)
  (vt : SampleProgram.vtable) (g : SampleProgram.globals) :
  SampleProgram.vt_print vt <> 0 -> SampleProgram.vt_exit vt <> 0 ->
  SampleProgram.vt_panic vt <> 0 ->
  let hello := SampleProgram.AStr ("Hello world" ++ nl) in
  SampleProgram.exec_trace (SampleProgram._start host vt g []) =
  [SampleProgram.Call (SampleProgram.vt_print vt) hello] ++
  (if host (SampleProgram.vt_print vt) hello then
     [SampleProgram.Call (SampleProgram.vt_exit vt) (SampleProgram.AInt 30)] ++
     (if host (SampleProgram.vt_exit vt) (SampleProgram.AInt 30)
      then [SampleProgram.Call (SampleProgram.vt_panic vt) (SampleProgram.AStr ">:(")]
      else [])
   else []).
Proof.
  intros Hp He Hk hello. rewrite sample_start_eq.
  destruct vt as [p e k]; cbn [SampleProgram.vt_print SampleProgram.vt_exit
    SampleProgram.vt_panic] in *.
  cbv beta iota zeta delta [SampleProgram.print_and_exit SampleProgram.seq SampleProgram.bind
    SampleProgram.get SampleProgram.print SampleProgram.exit_2 SampleProgram.panic
    SampleProgram.g_PRINT SampleProgram.g_EXIT SampleProgram.g_PANIC].
  rewrite (sample_call_ptr_nonnull host p) by exact Hp. fold hello.
  destruct (host p hello); [| reflexivity].
  rewrite (sample_call_ptr_nonnull host e) by exact He.
  destruct (host e (SampleProgram.AInt 30)); [| reflexivity].
  rewrite (sample_call_ptr_nonnull host k) by exact Hk.
  destruct (host k _); reflexivity.
Qed.

Lemma sample_start_host_calls_witness :
  let vt := SampleProgram.mk_vtable 1 2 3 in
  let host := fun (f : Z) (_ : SampleProgram.arg) => negb (f =? 2) in
  let hello := SampleProgram.AStr ("Hello world" ++ nl) in
  1 <> 0 /\ 2 <> 0 /\ 3 <> 0 /\
  SampleProgram.exec_trace (SampleProgram._start host vt SampleProgram.globals0 []) =
  [SampleProgram.Call 1 hello] ++
  (if host 1 hello then
     [SampleProgram.Call 2 (SampleProgram.AInt 30)] ++
     (if host 2 (SampleProgram.AInt 30)
      then [SampleProgram.Call 3 (SampleProgram.AStr ">:(")] else [])
   else []).
Proof.
  intros vt host hello. split; [lia | split; [lia | split; [lia |]]].
  apply (sample_start_host_calls host vt SampleProgram.globals0); cbn; lia.
Defined.

(** A null print entry in the vtable stops [_start] at its first call,
    after the statics were set, with no host function called. *)
Theorem sample_start_null_print (host : Z -> SampleProgram.arg -> bool)
  (vt : SampleProgram.vtable) (g : SampleProgram.globals) (tr : list SampleProgram.call) :
  SampleProgram.vt_print vt = 0 ->
  SampleProgram._start host vt g tr =
  SampleProgram.Stopped SampleProgram.NullCall
    (SampleProgram.mk_globals (SampleProgram.vt_exit vt) 0 (SampleProgram.vt_panic vt)) tr.
Proof.
  destruct vt as [p e k]; cbn [SampleProgram.vt_print]; intros ->. reflexivity.
Qed.

Lemma sample_start_null_print_witness :
  SampleProgram.vt_print (SampleProgram.mk_vtable 0 2 3) = 0 /\
  SampleProgram._start (fun _ _ => true) (SampleProgram.mk_vtable 0 2 3)
    SampleProgram.globals0 [] =
  SampleProgram.Stopped SampleProgram.NullCall (SampleProgram.mk_globals 2 0 3) [].
Proof.
  split; [reflexivity |].
  apply (sample_start_null_print (fun _ _ => true) (SampleProgram.mk_vtable 0 2 3)).
  reflexivity.
Defined.
